(** * socket/pseudossl.c : the pseudo-SSL socket decorator of libnice

    A shallow embedding of [socket/pseudossl.c].  The decorator wraps a
    connected base socket, writes a fixed client handshake record to it when
    it is built, queues outgoing messages until the fixed server handshake
    record has been read, and is a pass-through afterwards.

    The base socket ([NiceSocket] and the [nice_socket_*] calls of
    [socket/socket.c]) is not part of this file of the library: it is taken
    as an interface, [NiceSocketOps], over an abstract socket state.  Every
    call made on the base socket and on the allocator is recorded in a trace
    of [event]s, so that "what was sent, and in which order" is a statement
    about a list. *)

From Stdlib Require Import ZArith List Bool Lia.
From Stdlib Require Import Strings.Byte.
Import ListNotations.
Open Scope Z_scope.

(** ** Machine integers and C helpers *)

(** [gsize] is an unsigned 64-bit integer; its arithmetic wraps. *)
Definition gsize (z : Z) : Z := z mod 2 ^ 64.

(** [gboolean] values. *)
Definition TRUE : Z := 1.
Definition FALSE : Z := 0.

(** [sizeof] of a byte array. *)
Definition sizeof (a : list byte) : Z := Z.of_nat (List.length a).

(** [MIN (a, b)] of glib. *)
Definition MIN (a b : Z) : Z := if a <? b then a else b.

(** The value of a byte read as [unsigned char]. *)
Definition uchar (b : byte) : Z := Z.of_N (Byte.to_N b).

(** [memcmp (s1, s2, n)]: the difference of the first pair of bytes that
    differ among the first [n], [0] when there is none.  [None] when one of
    the two objects has fewer than [n] bytes. *)
Fixpoint memcmp (s1 s2 : list byte) (n : nat) : option Z :=
  match n with
  | O => Some 0
  | S n' =>
      match s1, s2 with
      | a :: s1', b :: s2' =>
          if Byte.eqb a b then memcmp s1' s2' n' else Some (uchar a - uchar b)
      | _, _ => None
      end
  end.

(** [memcpy (dst, src, len)] seen from the source side: the [len] bytes read
    from [src].  [None] when [src] is NULL or holds fewer than [len] bytes and
    [len] is not zero. *)
Definition memcpy (src : option (list byte)) (len : Z) : option (list byte) :=
  match src with
  | Some bytes =>
      if len <=? Z.of_nat (List.length bytes)
      then Some (firstn (Z.to_nat len) bytes)
      else None
  | None => if len =? 0 then Some [] else None
  end.

(** ** The two handshake records *)

Definition SSL_SERVER_HANDSHAKE : list byte :=
  [ x16; x03; x01; x00; x4a; x02; x00; x00;
    x46; x03; x01; x42; x85; x45; xa7; x27;
    xa9; x5d; xa0; xb3; xc5; xe7; x53; xda;
    x48; x2b; x3f; xc6; x5a; xca; x89; xc1;
    x58; x52; xa1; x78; x3c; x5b; x17; x46;
    x00; x85; x3f; x20; x0e; xd3; x06; x72;
    x5b; x5b; x1b; x5f; x15; xac; x13; xf9;
    x88; x53; x9d; x9b; xe8; x3d; x7b; x0c;
    x30; x32; x6e; x38; x4d; xa2; x75; x57;
    x41; x6c; x34; x5c; x00; x04; x00 ].

Definition SSL_CLIENT_HANDSHAKE : list byte :=
  [ x80; x46; x01; x03; x01; x00; x2d; x00;
    x00; x00; x10; x01; x00; x80; x03; x00;
    x80; x07; x00; xc0; x06; x00; x40; x02;
    x00; x80; x04; x00; x80; x00; x00; x04;
    x00; xfe; xff; x00; x00; x0a; x00; xfe;
    xfe; x00; x00; x09; x00; x00; x64; x00;
    x00; x62; x00; x00; x03; x00; x00; x06;
    x1f; x17; x0c; xa6; x2f; x00; x78; xfc;
    x46; x55; x2e; xb1; x83; x39; xf1; xea ].

(** ** Data model *)

Section PseudoSSL.

(** [NiceAddress] (agent/address.h) and [GSocket] (gio) are declared outside
    this file; [nice_address_zero] is the all-zero address that
    [g_slice_new0] leaves in a fresh [struct to_be_sent]. *)
Context {NiceAddress GSocket : Type}.
Variable nice_address_zero : NiceAddress.

(** [GOutputVector]: [buffer] is NULL ([None]) or points to bytes. *)
Record GOutputVector := {
  buffer : option (list byte);
  size : Z
}.

(** [NiceOutputMessage]: [buffers] is the array the pointer designates. *)
Record NiceOutputMessage := {
  buffers : list GOutputVector;
  n_buffers : Z;
  msg_to : option NiceAddress;
  msg_length : Z
}.

(** [GInputVector]: [in_buffer] is the content of the array it points to. *)
Record GInputVector := {
  in_buffer : list byte;
  in_size : Z
}.

Record NiceInputMessage := {
  in_buffers : list GInputVector;
  in_n_buffers : Z;
  in_from : option NiceAddress;
  in_length : Z
}.

(** [struct to_be_sent]. *)
Record to_be_sent := {
  buf : list byte;
  tbs_length : Z;
  tbs_to : NiceAddress
}.

(** The socket interface the decorator consumes.  A call returns the new
    state of the socket with its result; [nice_socket_recv_messages] also
    returns the messages as the call left them. *)
Class NiceSocketOps (B : Type) := {
  sock_fileno : B -> GSocket;
  sock_addr : B -> NiceAddress;
  nice_socket_send : B -> option NiceAddress -> Z -> list byte -> B * Z;
  nice_socket_send_messages : B -> list NiceOutputMessage -> Z -> B * Z;
  nice_socket_recv_messages :
    B -> list NiceInputMessage -> Z -> B * (Z * list NiceInputMessage)
}.

Context {B : Type} {base_ops : NiceSocketOps B}.

(** [PseudoSSLPriv]; the [GQueue] is a list, head first. *)
Record PseudoSSLPriv := {
  handshaken : bool;
  base_socket : option B;
  send_queue : list to_be_sent
}.

(** The decorator's own [NiceSocket]; its four function pointers are the
    functions below. *)
Record NiceSocket := {
  fileno : GSocket;
  addr : NiceAddress;
  priv : PseudoSSLPriv
}.

(** Calls on the base socket and on the allocator, in program order. *)
Inductive event :=
| Send (to : option NiceAddress) (len : Z) (data : list byte)
| SendMessages (messages : list NiceOutputMessage) (n_messages : Z)
| RecvMessages (recv_messages : list NiceInputMessage) (n_recv_messages : Z)
| SocketFree
| GFree (data : list byte)
| SliceFreeTbs (tbs : to_be_sent)
| SliceFreePriv.

(** Outcome of a call on the decorator: it returns a value, leaving a new
    private state and a trace; or [g_assert_cmpuint] aborts the process; or
    the call reads outside an object. *)
Inductive exec (A : Type) :=
| Returns (a : A) (p : PseudoSSLPriv) (t : list event)
| Aborts
| Undefined.
Arguments Returns {A} a p t.
Arguments Aborts {A}.
Arguments Undefined {A}.

(** ** Construction *)

Definition nice_pseudossl_socket_new (base : B) : NiceSocket * list event :=
  let '(base', _) :=
    nice_socket_send base None (sizeof SSL_CLIENT_HANDSHAKE)
      SSL_CLIENT_HANDSHAKE in
  ({| fileno := sock_fileno base;
      addr := sock_addr base;
      priv := {| handshaken := false;
                 base_socket := Some base';
                 send_queue := [] |} |},
   [Send None (sizeof SSL_CLIENT_HANDSHAKE) SSL_CLIENT_HANDSHAKE]).

(** ** Release *)

Definition free_to_be_sent (tbs : to_be_sent) : list event :=
  [GFree (buf tbs); SliceFreeTbs tbs].

Definition socket_close (p : PseudoSSLPriv) : list event :=
  (match base_socket p with
   | Some _ => [SocketFree]
   | None => []
   end)
  ++ flat_map free_to_be_sent (send_queue p)
  ++ [SliceFreePriv].

(** ** Receive *)

(** The [while ((tbs = g_queue_pop_head (&priv->send_queue)))] loop: every
    entry is handed to [nice_socket_send] and freed; the value the send
    returns is dropped. *)
Fixpoint flush_queue (base : B) (queue : list to_be_sent) : B * list event :=
  match queue with
  | [] => (base, [])
  | tbs :: queue' =>
      let '(base', _) :=
        nice_socket_send base (Some (tbs_to tbs)) (tbs_length tbs) (buf tbs) in
      let '(base'', t) := flush_queue base' queue' in
      (base'',
       Send (Some (tbs_to tbs)) (tbs_length tbs) (buf tbs)
         :: GFree (buf tbs) :: SliceFreeTbs tbs :: t)
  end.

(** [local_recv_buf] as the call on the base socket left it: the callee
    holds a pointer to it through [local_recv_message.buffers]. *)
Definition local_buf_after (local_recv_buf : GInputVector)
    (after : list NiceInputMessage) : GInputVector :=
  match after with
  | m :: _ =>
      match in_buffers m with
      | v :: _ => v
      | [] => local_recv_buf
      end
  | [] => local_recv_buf
  end.

(** The test [ret == 1 && local_recv_buf.size == sizeof (...) &&
    memcmp (...) == 0], evaluated left to right; [None] when [memcmp] reads
    outside the receive buffer. *)
Definition handshake_received (ret : Z) (local_recv_buf : GInputVector)
  : option bool :=
  if negb (ret =? 1) then Some false
  else if negb (in_size local_recv_buf =? sizeof SSL_SERVER_HANDSHAKE)
  then Some false
  else
    match memcmp SSL_SERVER_HANDSHAKE (in_buffer local_recv_buf)
            (Z.to_nat (sizeof SSL_SERVER_HANDSHAKE)) with
    | Some c => Some (c =? 0)
    | None => None
    end.

(** The locals [local_recv_buf = { data, sizeof (data) }] and
    [local_recv_message = { &local_recv_buf, 1, NULL, 0 }].  [data] is the
    content of the automatic array [guint8 data[...]] when the function is
    entered; C leaves it indeterminate. *)
Definition local_recv_buf (data : list byte) : GInputVector :=
  {| in_buffer := data; in_size := sizeof SSL_SERVER_HANDSHAKE |}.

Definition local_recv_message (data : list byte) : NiceInputMessage :=
  {| in_buffers := [local_recv_buf data]; in_n_buffers := 1;
     in_from := None; in_length := 0 |}.

Definition socket_recv_messages (data : list byte) (p : PseudoSSLPriv)
    (recv_messages : list NiceInputMessage) (n_recv_messages : Z)
  : exec (Z * list NiceInputMessage) :=
  if handshaken p then
    match base_socket p with
    | Some base =>
        let '(base', r) :=
          nice_socket_recv_messages base recv_messages n_recv_messages in
        Returns r
          {| handshaken := handshaken p;
             base_socket := Some base';
             send_queue := send_queue p |}
          [RecvMessages recv_messages n_recv_messages]
    | None => Returns (0, recv_messages) p []
    end
  else
    let '(ret, base', after, t) :=
      match base_socket p with
      | Some base =>
          let '(base', (ret, after)) :=
            nice_socket_recv_messages base [local_recv_message data] 1 in
          (ret, Some base', after,
           [RecvMessages [local_recv_message data] 1])
      | None => (-1, None, [local_recv_message data], [])
      end in
    if ret <=? 0 then
      Returns (ret, recv_messages)
        {| handshaken := false;
           base_socket := base';
           send_queue := send_queue p |}
        t
    else
      match handshake_received ret
              (local_buf_after (local_recv_buf data) after) with
      | None => Undefined
      | Some true =>
          match base' with
          | Some base' =>
              let '(base'', t') := flush_queue base' (send_queue p) in
              Returns (0, recv_messages)
                {| handshaken := true;
                   base_socket := Some base'';
                   send_queue := [] |}
                (t ++ t')
          | None => Undefined
          end
      | Some false =>
          Returns (-1, recv_messages)
            {| handshaken := false;
               base_socket := None;
               send_queue := send_queue p |}
            (t ++ match base' with
                  | Some _ => [SocketFree]
                  | None => []
                  end)
      end.

(** ** Send *)

(** The inner [for (j = 0; ...; j++)] loop of [add_to_be_sent], run on the
    entries of [message->buffers] from index [j] on.  [dst] holds the bytes
    of [tbs->buf] written so far, those below [offset].  [None]: the loop
    reads past the end of the array, or [memcpy] reads outside its source.
    [j] is a [guint]; it counts entries of an array and stays below 2^32. *)
Fixpoint copy_buffers (message_n_buffers message_length : Z)
    (vectors : list GOutputVector) (j offset : Z) (dst : list byte)
  : option (Z * list byte) :=
  match vectors with
  | [] =>
      if (0 <=? message_n_buffers) && (j <? message_n_buffers) then None
      else if message_n_buffers <? 0 then None
      else Some (offset, dst)
  | v :: vectors' =>
      if ((0 <=? message_n_buffers) && (j <? message_n_buffers))
         || ((message_n_buffers <? 0)
             && match buffer v with Some _ => true | None => false end)
      then
        let len := MIN (gsize (message_length - offset)) (size v) in
        match memcpy (buffer v) len with
        | None => None
        | Some bytes =>
            copy_buffers message_n_buffers message_length vectors'
              (j + 1) (gsize (offset + len)) (dst ++ bytes)
        end
      else Some (offset, dst)
  end.

(** Outcome of [add_to_be_sent]: the new queue, an abort, or a read outside
    an object. *)
Inductive queued :=
| Queued (queue : list to_be_sent)
| AssertFailed
| OutOfBounds.

(** The outer [for (i = 0; i < n_messages; i++)] loop, run on the entries
    of [messages] from index [i] on. *)
Fixpoint add_to_be_sent_from (messages : list NiceOutputMessage)
    (i n_messages : Z) (queue : list to_be_sent) : queued :=
  if i <? n_messages then
    match messages with
    | [] => OutOfBounds
    | message :: messages' =>
        let to := match msg_to message with
                  | Some a => a
                  | None => nice_address_zero
                  end in
        match copy_buffers (n_buffers message) (msg_length message)
                (buffers message) 0 0 [] with
        | None => OutOfBounds
        | Some (offset, bytes) =>
            if offset =? msg_length message then
              add_to_be_sent_from messages' (i + 1) n_messages
                (queue ++ [{| buf := bytes;
                              tbs_length := msg_length message;
                              tbs_to := to |}])
            else AssertFailed
        end
    end
  else Queued queue.

Definition add_to_be_sent (p : PseudoSSLPriv)
    (messages : list NiceOutputMessage) (n_messages : Z) : exec unit :=
  match add_to_be_sent_from messages 0 n_messages (send_queue p) with
  | Queued queue =>
      Returns tt
        {| handshaken := handshaken p;
           base_socket := base_socket p;
           send_queue := queue |}
        []
  | AssertFailed => Aborts
  | OutOfBounds => Undefined
  end.

Definition socket_send_messages (p : PseudoSSLPriv)
    (messages : list NiceOutputMessage) (n_messages : Z) : exec Z :=
  if handshaken p then
    match base_socket p with
    | None => Returns FALSE p []
    | Some base =>
        let '(base', r) :=
          nice_socket_send_messages base messages n_messages in
        Returns r
          {| handshaken := handshaken p;
             base_socket := Some base';
             send_queue := send_queue p |}
          [SendMessages messages n_messages]
    end
  else
    match add_to_be_sent p messages n_messages with
    | Returns _ p' t => Returns TRUE p' t
    | Aborts => Aborts
    | Undefined => Undefined
    end.

Definition socket_is_reliable (p : PseudoSSLPriv) : Z := TRUE.

(** ** The life of a decorator *)

(** One returning call of the socket interface takes [p] to [p']. *)
Inductive step (p p' : PseudoSSLPriv) : Prop :=
| step_recv data recv_messages n_recv_messages r t :
    socket_recv_messages data p recv_messages n_recv_messages
      = Returns r p' t ->
    step p p'
| step_send messages n_messages r t :
    socket_send_messages p messages n_messages = Returns r p' t ->
    step p p'.

Inductive reaches (p : PseudoSSLPriv) : PseudoSSLPriv -> Prop :=
| reaches_here : reaches p p
| reaches_step p' p'' : reaches p p' -> step p' p'' -> reaches p p''.

(** ** Messages as the copy loop reads them *)

(** The entries of a NULL-terminated array before its terminator. *)
Fixpoint until_null (vectors : list GOutputVector)
  : option (list GOutputVector) :=
  match vectors with
  | [] => None
  | v :: vectors' =>
      match buffer v with
      | None => Some []
      | Some _ =>
          match until_null vectors' with
          | Some vs => Some (v :: vs)
          | None => None
          end
      end
  end.

(** The vectors of a message: the first [n_buffers] entries of the array,
    or those before the NULL entry when [n_buffers] is negative.  [None]
    when the array is too short or lacks its terminator. *)
Definition message_vectors (m : NiceOutputMessage)
  : option (list GOutputVector) :=
  if 0 <=? n_buffers m then
    if n_buffers m <=? Z.of_nat (List.length (buffers m))
    then Some (firstn (Z.to_nat (n_buffers m)) (buffers m))
    else None
  else until_null (buffers m).

(** A vector that can be read: [size] is a [gsize] and the memory behind
    [buffer] holds at least [size] bytes. *)
Definition valid_vector (v : GOutputVector) : bool :=
  (0 <=? size v) && (size v <? 2 ^ 64)
  && match buffer v with
     | Some bytes => size v <=? Z.of_nat (List.length bytes)
     | None => size v =? 0
     end.

Definition valid_message (m : NiceOutputMessage) : bool :=
  (0 <=? msg_length m) && (msg_length m <? 2 ^ 64)
  && match message_vectors m with
     | Some vs => forallb valid_vector vs
     | None => false
     end.

Fixpoint total_size (vectors : list GOutputVector) : Z :=
  match vectors with
  | [] => 0
  | v :: vectors' => size v + total_size vectors'
  end.

(** The buffers of the message hold at least its declared length. *)
Definition covered (m : NiceOutputMessage) : bool :=
  match message_vectors m with
  | Some vs => msg_length m <=? total_size vs
  | None => false
  end.

(** A message the copy loop can read and whose assertion holds. *)
Definition well_formed (m : NiceOutputMessage) : bool :=
  valid_message m && covered m.

(** The byte range a vector designates, and the ranges of a message laid
    end to end. *)
Definition vector_bytes (v : GOutputVector) : list byte :=
  match buffer v with
  | Some bytes => firstn (Z.to_nat (size v)) bytes
  | None => []
  end.

Definition message_bytes (m : NiceOutputMessage) : list byte :=
  match message_vectors m with
  | Some vs => concat (map vector_bytes vs)
  | None => []
  end.

(** The queue entry of a message: its first [msg_length] bytes in one
    buffer, with the destination copied by value. *)
Definition compacted (m : NiceOutputMessage) : to_be_sent :=
  {| buf := firstn (Z.to_nat (msg_length m)) (message_bytes m);
     tbs_length := msg_length m;
     tbs_to := match msg_to m with
               | Some a => a
               | None => nice_address_zero
               end |}.

(** The entries released through [g_slice_free] in a trace. *)
Fixpoint freed_entries (t : list event) : list to_be_sent :=
  match t with
  | [] => []
  | SliceFreeTbs tbs :: t' => tbs :: freed_entries t'
  | _ :: t' => freed_entries t'
  end.

(** The sends made on the base socket in a trace. *)
Fixpoint sends (t : list event) : list event :=
  match t with
  | [] => []
  | Send to len data :: t' => Send to len data :: sends t'
  | SendMessages ms n :: t' => SendMessages ms n :: sends t'
  | _ :: t' => sends t'
  end.

End PseudoSSL.

Arguments Returns {NiceAddress B A} a p t.
Arguments Aborts {NiceAddress B A}.
Arguments Undefined {NiceAddress B A}.

(** ** Whole lives of a decorator *)

Section Lives.

Context {NiceAddress GSocket : Type} (nice_address_zero : NiceAddress).
Context {B : Type} {base_ops : @NiceSocketOps NiceAddress GSocket B}.

(** [runs p t p']: a sequence of returning calls of the socket interface
    takes [p] to [p'], and [t] is every call it made on the base socket and
    on the allocator, in order. *)
Inductive runs (p : @PseudoSSLPriv NiceAddress B)
  : list event -> @PseudoSSLPriv NiceAddress B -> Prop :=
| runs_here : runs p [] p
| runs_recv t p' data recv_messages n_recv_messages r p'' t' :
    runs p t p' ->
    socket_recv_messages data p' recv_messages n_recv_messages
    = Returns r p'' t' ->
    runs p (t ++ t') p''
| runs_send t p' messages n_messages r p'' t' :
    runs p t p' ->
    socket_send_messages nice_address_zero p' messages n_messages
    = Returns r p'' t' ->
    runs p (t ++ t') p''.

(** How often [nice_socket_free] is called in a trace. *)
Fixpoint count_socket_free (t : list (@event NiceAddress)) : nat :=
  match t with
  | [] => 0
  | SocketFree :: t' => S (count_socket_free t')
  | _ :: t' => count_socket_free t'
  end.

(** The [nice_socket_send] call the flush makes for a queue entry. *)
Definition entry_send (tbs : @to_be_sent NiceAddress) : @event NiceAddress :=
  Send (Some (tbs_to tbs)) (tbs_length tbs) (buf tbs).

(** A queue entry whose buffer holds exactly [length] bytes. *)
Definition whole (tbs : @to_be_sent NiceAddress) : bool :=
  sizeof (buf tbs) =? tbs_length tbs.

(** A message whose [gsize] fields are in the range of their type; nothing
    is asked of the memory behind its buffers. *)
Definition in_range (m : @NiceOutputMessage NiceAddress) : bool :=
  (0 <=? msg_length m) && (msg_length m <? 2 ^ 64)
  && forallb (fun v => (0 <=? size v) && (size v <? 2 ^ 64)) (buffers m).

(** One send call, as its two arguments, that reads [n_messages] well-formed
    messages of its array. *)
Definition acceptable_call (call : list (@NiceOutputMessage NiceAddress) * Z)
  : bool :=
  (0 <=? snd call) && (snd call <=? Z.of_nat (List.length (fst call)))
  && forallb well_formed (firstn (Z.to_nat (snd call)) (fst call)).

(** The queue entries one acceptable send call adds. *)
Definition entries_of (call : list (@NiceOutputMessage NiceAddress) * Z)
  : list to_be_sent :=
  map (compacted nice_address_zero) (firstn (Z.to_nat (snd call)) (fst call)).

(** A caller making one send call after the other. *)
Fixpoint send_each (p : @PseudoSSLPriv NiceAddress B)
    (calls : list (list NiceOutputMessage * Z)) : exec unit :=
  match calls with
  | [] => Returns tt p []
  | call :: calls' =>
      match socket_send_messages nice_address_zero p (fst call) (snd call) with
      | Returns _ p' t =>
          match send_each p' calls' with
          | Returns u p'' t' => Returns u p'' (t ++ t')
          | Aborts => Aborts
          | Undefined => Undefined
          end
      | Aborts => Aborts
      | Undefined => Undefined
      end
  end.

End Lives.

(** ** A scripted base socket

    A base socket for running the decorator on concrete inputs.  Addresses
    and descriptors are numbers.  Receives are answered from a script, one
    entry per call: the value returned, and the size and content the receive
    vector is left with.  Every send returns [send_result]. *)

Record ScriptedSocket := {
  incoming : list (Z * Z * list byte);
  send_result : Z
}.

Definition scripted_recv (b : ScriptedSocket)
    (recv_messages : list (@NiceInputMessage Z)) (n : Z)
  : ScriptedSocket * (Z * list (@NiceInputMessage Z)) :=
  match incoming b with
  | [] => (b, (0, recv_messages))
  | (ret, sz, bytes) :: rest =>
      ({| incoming := rest; send_result := send_result b |},
       (ret,
        [{| in_buffers := [{| in_buffer := bytes; in_size := sz |}];
            in_n_buffers := 1;
            in_from := None;
            in_length := sizeof bytes |}]))
  end.

#[local] Instance scripted_ops : @NiceSocketOps Z Z ScriptedSocket := {|
  sock_fileno := fun _ => 3;
  sock_addr := fun _ => 0;
  nice_socket_send := fun b _ _ _ => (b, send_result b);
  nice_socket_send_messages := fun b _ _ => (b, send_result b);
  nice_socket_recv_messages := scripted_recv
|}.

(** The scripted socket with sends that always succeed: a send returns the
    length it was given. *)
Definition succeeding_ops : @NiceSocketOps Z Z ScriptedSocket := {|
  sock_fileno := fun _ => 3;
  sock_addr := fun _ => 0;
  nice_socket_send := fun b _ len _ => (b, len);
  nice_socket_send_messages := fun b _ n => (b, n);
  nice_socket_recv_messages := scripted_recv
|}.

(** ** A base socket that fills the caller's buffer

    A base socket that receives as a stream socket does.  A receive takes
    the next pending record, copies as many of its bytes as fit into the
    first buffer of the first message, leaves the rest of that buffer and
    the [size] of the vector as they were, stores the number of bytes copied
    in the [length] of the message and returns [1].  With nothing pending it
    returns [0].  A send returns the length it was given. *)

Record StreamSocket := {
  pending : list (list byte)
}.

Definition store_record (v : GInputVector) (record : list byte)
  : GInputVector :=
  let stored := firstn (Z.to_nat (in_size v)) record in
  {| in_buffer := stored ++ skipn (List.length stored) (in_buffer v);
     in_size := in_size v |}.

Definition stream_recv (b : StreamSocket)
    (recv_messages : list (@NiceInputMessage Z)) (n : Z)
  : StreamSocket * (Z * list (@NiceInputMessage Z)) :=
  match pending b, recv_messages with
  | record :: rest, m :: ms =>
      match in_buffers m with
      | v :: vs =>
          ({| pending := rest |},
           (1,
            {| in_buffers := store_record v record :: vs;
               in_n_buffers := in_n_buffers m;
               in_from := in_from m;
               in_length := sizeof (firstn (Z.to_nat (in_size v)) record) |}
              :: ms))
      | [] => (b, (0, recv_messages))
      end
  | _, _ => (b, (0, recv_messages))
  end.

Definition stream_ops : @NiceSocketOps Z Z StreamSocket := {|
  sock_fileno := fun _ => 3;
  sock_addr := fun _ => 0;
  nice_socket_send := fun b _ len _ => (b, len);
  nice_socket_send_messages := fun b _ n => (b, n);
  nice_socket_recv_messages := stream_recv
|}.

(** ** Concrete inputs *)

(** The first 78 bytes of the server handshake record: a record one byte
    short. *)
Definition short_record : list byte := firstn 78 SSL_SERVER_HANDSHAKE.

(** An automatic array that holds zeros on entry. *)
Definition zeroed_data : list byte := repeat x00 79.

(** A decorator waiting for the handshake on a stream socket whose next
    record is the short one, two sends queued. *)
Definition waiting_on_short_record : @PseudoSSLPriv Z StreamSocket :=
  {| handshaken := false;
     base_socket := Some {| pending := [short_record] |};
     send_queue :=
       [{| buf := [x68; x65; x6c; x6c; x6f]; tbs_length := 5; tbs_to := 7 |};
        {| buf := [x62; x79; x65]; tbs_length := 3; tbs_to := 0 |}] |}.

(** What the automatic array of the receive function may hold on entry. *)
Definition stale_data : list byte := repeat xaa 79.

(** "he" and "llo" in two vectors, declared length 5, addressed to 7. *)
Definition scattered_message : @NiceOutputMessage Z :=
  {| buffers := [ {| buffer := Some [x68; x65]; size := 2 |};
                  {| buffer := Some [x6c; x6c; x6f]; size := 3 |} ];
     n_buffers := 2;
     msg_to := Some 7;
     msg_length := 5 |}.

(** The same bytes in a NULL-terminated array, with no destination. *)
Definition terminated_message : @NiceOutputMessage Z :=
  {| buffers := [ {| buffer := Some [x68; x65]; size := 2 |};
                  {| buffer := Some [x6c; x6c; x6f]; size := 3 |};
                  {| buffer := None; size := 0 |} ];
     n_buffers := -1;
     msg_to := None;
     msg_length := 5 |}.

(** Three bytes in the buffers, five declared. *)
Definition short_message : @NiceOutputMessage Z :=
  {| buffers := [ {| buffer := Some [x68; x65; x6c]; size := 3 |} ];
     n_buffers := 1;
     msg_to := None;
     msg_length := 5 |}.

(** A base socket whose next receive delivers the server handshake record
    and whose sends all fail. *)
Definition answering_socket : ScriptedSocket :=
  {| incoming := [(1, 79, SSL_SERVER_HANDSHAKE)]; send_result := -1 |}.

(** A base socket whose next receive delivers one record of 72 bytes, the
    client handshake record echoed back. *)
Definition echoing_socket : ScriptedSocket :=
  {| incoming := [(1, 72, SSL_CLIENT_HANDSHAKE)]; send_result := 5 |}.

Definition hello_entry : @to_be_sent Z :=
  {| buf := [x68; x65; x6c; x6c; x6f]; tbs_length := 5; tbs_to := 7 |}.

Definition bye_entry : @to_be_sent Z :=
  {| buf := [x62; x79; x65]; tbs_length := 3; tbs_to := 0 |}.

(** A decorator waiting for the handshake on [base], two sends queued. *)
Definition waiting_on (base : ScriptedSocket)
  : @PseudoSSLPriv Z ScriptedSocket :=
  {| handshaken := false;
     base_socket := Some base;
     send_queue := [hello_entry; bye_entry] |}.

(** A decorator whose handshake has failed. *)
Definition poisoned_priv : @PseudoSSLPriv Z ScriptedSocket :=
  {| handshaken := false; base_socket := None; send_queue := [] |}.

(** A handshaken decorator without its base socket. *)
Definition orphaned_priv : @PseudoSSLPriv Z ScriptedSocket :=
  {| handshaken := true; base_socket := None; send_queue := [] |}.

(** Eight bytes in the buffers, five declared. *)
Definition long_message : @NiceOutputMessage Z :=
  {| buffers := [ {| buffer := Some [x68; x65; x6c]; size := 3 |};
                  {| buffer := Some [x6c; x6f; x21; x21; x21]; size := 5 |} ];
     n_buffers := 2;
     msg_to := Some 9;
     msg_length := 5 |}.

(** A base socket that first has nothing to deliver, then delivers the
    server handshake record. *)
Definition slow_socket : ScriptedSocket :=
  {| incoming := [(0, 79, stale_data); (1, 79, SSL_SERVER_HANDSHAKE)];
     send_result := 5 |}.

(** * Properties *)

(** ** The C helpers *)

Lemma sizeof_SSL_SERVER_HANDSHAKE : sizeof SSL_SERVER_HANDSHAKE = 79.
Proof. reflexivity. Qed.

Lemma sizeof_SSL_CLIENT_HANDSHAKE : sizeof SSL_CLIENT_HANDSHAKE = 72.
Proof. reflexivity. Qed.

Lemma gsize_small z : 0 <= z < 2 ^ 64 -> gsize z = z.
Proof. intros H. unfold gsize. now apply Z.mod_small. Qed.

Lemma MIN_min a b : MIN a b = Z.min a b.
Proof. unfold MIN. destruct (Z.ltb_spec a b); lia. Qed.

Lemma uchar_inj a b : uchar a = uchar b -> a = b.
Proof.
  unfold uchar. intros H. apply N2Z.inj in H.
  assert (E : Byte.of_N (Byte.to_N a) = Byte.of_N (Byte.to_N b))
    by now rewrite H.
  rewrite !Byte.of_to_N in E. now injection E.
Qed.

(** On two arrays of [n] bytes [memcmp] answers, and answers [0] exactly
    when they are equal. *)
Lemma memcmp_full s1 s2 n :
  List.length s1 = n -> List.length s2 = n ->
  exists c, memcmp s1 s2 n = Some c /\ (c = 0 <-> s1 = s2).
Proof.
  revert s1 s2. induction n as [|n IH]; intros [|a s1] [|b s2] H1 H2;
    simpl in *; try discriminate.
  - exists 0. repeat split; reflexivity.
  - destruct (Byte.eqb a b) eqn:E.
    + apply Byte.byte_dec_bl in E. subst b.
      destruct (IH s1 s2) as (c & Hc & Hiff); try lia.
      exists c. split; [exact Hc|]. split.
      * intros H. f_equal. now apply Hiff.
      * intros H. injection H as H. now apply Hiff.
    + apply Byte.eqb_false in E.
      exists (uchar a - uchar b). split; [reflexivity|]. split.
      * intros H. exfalso. apply E. apply uchar_inj. lia.
      * intros H. injection H as H _. contradiction.
Qed.

(** ** The copy loop *)

Section CopyLoop.

Context {NiceAddress : Type}.

Lemma total_size_nonneg (vs : list GOutputVector) :
  forallb valid_vector vs = true -> 0 <= total_size vs.
Proof.
  induction vs as [|v vs IH]; simpl; [lia|].
  intros H. apply andb_true_iff in H as [Hv Hvs].
  unfold valid_vector in Hv.
  apply andb_true_iff in Hv as [Hv _]. apply andb_true_iff in Hv as [Hv _].
  specialize (IH Hvs). lia.
Qed.

Lemma valid_vector_inv (v : GOutputVector) :
  valid_vector v = true ->
  0 <= size v < 2 ^ 64
  /\ match buffer v with
     | Some bytes => size v <= Z.of_nat (List.length bytes)
     | None => size v = 0
     end.
Proof.
  unfold valid_vector. intros H.
  apply andb_true_iff in H as [H Hb]. apply andb_true_iff in H as [H0 H1].
  split; [lia|]. destruct (buffer v); lia.
Qed.

(** Reading [len <= size v] bytes of a valid vector gives the first [len]
    bytes of its range. *)
Lemma memcpy_valid (v : GOutputVector) len :
  valid_vector v = true -> 0 <= len <= size v ->
  memcpy (buffer v) len = Some (firstn (Z.to_nat len) (vector_bytes v)).
Proof.
  intros Hv Hlen. apply valid_vector_inv in Hv as [Hs Hb].
  unfold memcpy, vector_bytes. destruct (buffer v) as [bytes|].
  - destruct (Z.leb_spec len (Z.of_nat (List.length bytes))); [|lia].
    rewrite firstn_firstn. f_equal. f_equal. lia.
  - assert (len = 0) by lia. subst len. reflexivity.
Qed.

Lemma length_vector_bytes (v : GOutputVector) :
  valid_vector v = true ->
  Z.of_nat (List.length (vector_bytes v)) = size v.
Proof.
  intros Hv. apply valid_vector_inv in Hv as [Hs Hb].
  unfold vector_bytes. destruct (buffer v) as [bytes|]; simpl; [|lia].
  rewrite length_firstn. lia.
Qed.

(** The loop over the vectors [vs] of a message, entered at index [j] with
    [offset] bytes already copied: it copies bytes until the declared
    length is reached and never more. *)
Lemma copy_buffers_run (vs rest : list GOutputVector) nb L :
  forallb valid_vector vs = true ->
  L < 2 ^ 64 ->
  forall j offset dst,
    0 <= offset <= L ->
    (0 <= nb /\ nb = j + Z.of_nat (List.length vs)
     \/ nb < 0 /\ Forall (fun v => buffer v <> None) vs
        /\ exists v rest', rest = v :: rest' /\ buffer v = None) ->
    copy_buffers nb L (vs ++ rest) j offset dst
    = Some (Z.min L (offset + total_size vs),
            dst ++ firstn (Z.to_nat (L - offset))
                     (concat (map vector_bytes vs))).
Proof.
  intros Hvs HL. induction vs as [|v vs IH]; intros j offset dst Hoff Hshape.
  - simpl. rewrite firstn_nil, app_nil_r, Z.add_0_r, Z.min_r by lia.
    destruct Hshape as [[Hnb Hj]|(Hnb & _ & v & rest' & -> & Hv)].
    + simpl in Hj.
      assert (E : (0 <=? nb) && (j <? nb) = false).
      { apply andb_false_iff. right. apply Z.ltb_ge. lia. }
      destruct rest as [|v rest']; simpl; rewrite E.
      * destruct (Z.ltb_spec nb 0); [lia|reflexivity].
      * destruct (Z.ltb_spec nb 0); [lia|reflexivity].
    + simpl. rewrite Hv.
      destruct (Z.leb_spec 0 nb); [lia|]. simpl.
      now rewrite andb_false_r.
  - simpl in Hvs. apply andb_true_iff in Hvs as [Hv Hvs].
    specialize (IH Hvs).
    pose proof (total_size_nonneg vs Hvs) as Htot.
    pose proof (valid_vector_inv v Hv) as [Hs _].
    pose proof (length_vector_bytes v Hv) as Hlen.
    assert (Hcond : ((0 <=? nb) && (j <? nb))
                    || ((nb <? 0)
                        && match buffer v with
                           | Some _ => true
                           | None => false
                           end) = true).
    { destruct Hshape as [[Hnb Hj]|(Hnb & Hnn & _)].
      - apply orb_true_iff. left. apply andb_true_iff.
        simpl List.length in Hj. split; [apply Z.leb_le|apply Z.ltb_lt]; lia.
      - apply orb_true_iff. right. apply andb_true_iff.
        split; [apply Z.ltb_lt; lia|].
        inversion Hnn as [|? ? Hb _]; subst.
        destruct (buffer v); [reflexivity|contradiction]. }
    simpl. rewrite Hcond.
    rewrite gsize_small, MIN_min by lia.
    set (len := Z.min (L - offset) (size v)).
    rewrite (memcpy_valid v len Hv) by lia.
    rewrite gsize_small by lia.
    rewrite IH.
    + f_equal. f_equal.
      * unfold len. lia.
      * rewrite <- app_assoc. f_equal.
        rewrite firstn_app. f_equal.
        -- destruct (Z.le_ge_cases (L - offset) (size v)).
           ++ unfold len. rewrite Z.min_l by lia. reflexivity.
           ++ unfold len. rewrite Z.min_r by lia.
              rewrite !firstn_all2; [reflexivity|lia|lia].
        -- f_equal. unfold len. lia.
    + unfold len. lia.
    + destruct Hshape as [[Hnb Hj]|(Hnb & Hnn & Hrest)].
      * left. simpl List.length in Hj. split; lia.
      * right. inversion Hnn; subst. auto.
Qed.

Lemma until_null_split (vectors vs : list GOutputVector) :
  until_null vectors = Some vs ->
  Forall (fun v => buffer v <> None) vs
  /\ exists v rest', vectors = vs ++ v :: rest' /\ buffer v = None.
Proof.
  revert vs. induction vectors as [|v vectors IH]; intros vs H; simpl in H.
  - discriminate.
  - destruct (buffer v) as [bytes|] eqn:Hb.
    + destruct (until_null vectors) as [vs'|]; [|discriminate].
      injection H as <-.
      destruct (IH vs' eq_refl) as (Hnn & w & rest' & -> & Hw).
      split.
      * constructor; [congruence|exact Hnn].
      * exists w, rest'. split; [reflexivity|exact Hw].
    + injection H as <-. split; [constructor|].
      exists v, vectors. split; [reflexivity|exact Hb].
Qed.

Lemma valid_message_inv (m : @NiceOutputMessage NiceAddress) vs :
  valid_message m = true -> message_vectors m = Some vs ->
  0 <= msg_length m < 2 ^ 64 /\ forallb valid_vector vs = true.
Proof.
  unfold valid_message. intros H Hvs. rewrite Hvs in H.
  apply andb_true_iff in H as [H Hf]. apply andb_true_iff in H as [H0 H1].
  split; [lia|exact Hf].
Qed.

(** The copy loop on a whole message: the count it ends with and the bytes
    it has stored. *)
Lemma copy_buffers_message (m : @NiceOutputMessage NiceAddress) vs :
  valid_message m = true -> message_vectors m = Some vs ->
  copy_buffers (n_buffers m) (msg_length m) (buffers m) 0 0 []
  = Some (Z.min (msg_length m) (total_size vs),
          firstn (Z.to_nat (msg_length m)) (concat (map vector_bytes vs))).
Proof.
  intros Hm Hvs.
  destruct (valid_message_inv m vs Hm Hvs) as [HL Hvalid].
  unfold message_vectors in Hvs.
  destruct (Z.leb_spec 0 (n_buffers m)) as [Hnb|Hnb].
  - destruct (Z.leb_spec (n_buffers m) (Z.of_nat (List.length (buffers m))))
      as [Hle|]; [|discriminate].
    injection Hvs as <-.
    rewrite <- (firstn_skipn (Z.to_nat (n_buffers m)) (buffers m)) at 1.
    rewrite copy_buffers_run; try assumption; try lia.
    + now rewrite Z.add_0_l, Z.sub_0_r.
    + left. rewrite length_firstn. lia.
  - destruct (until_null_split _ _ Hvs) as (Hnn & v & rest' & E & Hv).
    rewrite E.
    rewrite copy_buffers_run; try assumption; try lia.
    + now rewrite Z.add_0_l, Z.sub_0_r.
    + right. split; [lia|]. split; [exact Hnn|]. now exists v, rest'.
Qed.

Lemma length_message_bytes (vs : list GOutputVector) :
  forallb valid_vector vs = true ->
  sizeof (concat (map vector_bytes vs)) = total_size vs.
Proof.
  unfold sizeof. induction vs as [|v vs IH]; simpl; [reflexivity|].
  intros H. apply andb_true_iff in H as [Hv Hvs].
  rewrite length_app, Nat2Z.inj_add, (length_vector_bytes v Hv), IH; auto.
Qed.

End CopyLoop.

(** ** Sending before the handshake *)

Section Sending.

Context {NiceAddress GSocket : Type} (nice_address_zero : NiceAddress).
Context {B : Type} {base_ops : @NiceSocketOps NiceAddress GSocket B}.

Lemma add_to_be_sent_from_done messages i n queue :
  n <= i ->
  add_to_be_sent_from nice_address_zero messages i n queue = Queued queue.
Proof.
  intros H. destruct messages; simpl;
    destruct (Z.ltb_spec i n); try lia; reflexivity.
Qed.

Lemma compacted_covered (m : NiceOutputMessage) vs :
  message_vectors m = Some vs ->
  (compacted nice_address_zero) m
  = {| buf := firstn (Z.to_nat (msg_length m))
                (concat (map vector_bytes vs));
       tbs_length := msg_length m;
       tbs_to := match msg_to m with
                 | Some a => a
                 | None => nice_address_zero
                 end |}.
Proof. intros H. unfold compacted, message_bytes. now rewrite H. Qed.

(** The outer loop on well-formed messages appends their compacted copies,
    in order. *)
Lemma add_to_be_sent_from_well_formed ms rest :
  forallb well_formed ms = true ->
  forall i queue,
    add_to_be_sent_from nice_address_zero (ms ++ rest) i
      (i + Z.of_nat (List.length ms)) queue
    = Queued (queue ++ map (compacted nice_address_zero) ms).
Proof.
  intros Hms. induction ms as [|m ms IH]; intros i queue.
  - simpl app. rewrite add_to_be_sent_from_done by (simpl; lia).
    simpl. now rewrite app_nil_r.
  - simpl in Hms. apply andb_true_iff in Hms as [Hm Hms].
    unfold well_formed in Hm. apply andb_true_iff in Hm as [Hvalid Hcov].
    unfold covered in Hcov.
    destruct (message_vectors m) as [vs|] eqn:Hvs; [|discriminate].
    apply Z.leb_le in Hcov.
    cbn [app add_to_be_sent_from].
    destruct (Z.ltb_spec i (i + Z.of_nat (List.length (m :: ms))));
      [|simpl List.length in *; lia].
    rewrite (copy_buffers_message m vs Hvalid Hvs).
    rewrite Z.min_l by lia. rewrite Z.eqb_refl.
    replace (i + Z.of_nat (List.length (m :: ms)))
      with ((i + 1) + Z.of_nat (List.length ms))
      by (simpl List.length; lia).
    rewrite (IH Hms). rewrite <- app_assoc. simpl.
    now rewrite (compacted_covered m vs Hvs).
Qed.

Lemma add_to_be_sent_well_formed (p : @PseudoSSLPriv NiceAddress B)
    messages n_messages :
  0 <= n_messages <= Z.of_nat (List.length messages) ->
  forallb well_formed (firstn (Z.to_nat n_messages) messages) = true ->
  add_to_be_sent nice_address_zero p messages n_messages
  = Returns tt
      {| handshaken := handshaken p;
         base_socket := base_socket p;
         send_queue :=
           send_queue p
           ++ map (compacted nice_address_zero)
                  (firstn (Z.to_nat n_messages) messages) |}
      [].
Proof.
  intros Hn Hwf. unfold add_to_be_sent.
  pose proof (add_to_be_sent_from_well_formed _
                (skipn (Z.to_nat n_messages) messages) Hwf 0 (send_queue p))
    as E.
  rewrite firstn_skipn, length_firstn in E.
  replace (0 + Z.of_nat (Nat.min (Z.to_nat n_messages) (List.length messages)))
    with n_messages in E by lia.
  now rewrite E.
Qed.

(** C2.  A send call made before the handshake, with the base socket
    present or not, never reaches the base socket: whenever it returns, it
    returns [TRUE], its trace of calls is empty and the base socket is the
    one it found.  On messages whose buffers hold their declared length,
    which is what the closing assertion of [add_to_be_sent] demands, the
    call does return: it appends the compacted copy of each message to the
    queue, in order, and reports [TRUE]. *)
Theorem send_before_handshake_queues (p : @PseudoSSLPriv NiceAddress B)
    messages n_messages :
  handshaken p = false ->
  (forall r p' t,
      socket_send_messages nice_address_zero p messages n_messages
      = Returns r p' t ->
      r = TRUE /\ t = [] /\ base_socket p' = base_socket p)
  /\ (0 <= n_messages <= Z.of_nat (List.length messages) ->
      forallb well_formed (firstn (Z.to_nat n_messages) messages) = true ->
      socket_send_messages nice_address_zero p messages n_messages
      = Returns TRUE
          {| handshaken := false;
             base_socket := base_socket p;
             send_queue :=
               send_queue p
               ++ map (compacted nice_address_zero)
                  (firstn (Z.to_nat n_messages) messages) |}
          []).
Proof.
  intros Hh. split.
  - intros r p' t. unfold socket_send_messages. rewrite Hh.
    unfold add_to_be_sent.
    destruct (add_to_be_sent_from nice_address_zero messages 0 n_messages
                (send_queue p));
      intros H; try discriminate.
    injection H as <- <- <-. repeat split.
  - intros Hn Hwf. unfold socket_send_messages. rewrite Hh.
    rewrite (add_to_be_sent_well_formed p messages n_messages Hn Hwf).
    now rewrite Hh.
Qed.

(** C6, as amended.  A send call made on a poisoned decorator (handshake
    failed, base socket released, still not handshaken) does not fail: it
    queues the messages and returns [TRUE]. *)
Theorem send_after_poisoning_queues (p : @PseudoSSLPriv NiceAddress B)
    messages n_messages :
  handshaken p = false ->
  base_socket p = None ->
  0 <= n_messages <= Z.of_nat (List.length messages) ->
  forallb well_formed (firstn (Z.to_nat n_messages) messages) = true ->
  socket_send_messages nice_address_zero p messages n_messages
  = Returns TRUE
      {| handshaken := false;
         base_socket := None;
         send_queue :=
           send_queue p
           ++ map (compacted nice_address_zero)
                  (firstn (Z.to_nat n_messages) messages) |}
      [].
Proof.
  intros Hh Hb Hn Hwf. unfold socket_send_messages. rewrite Hh.
  rewrite (add_to_be_sent_well_formed p messages n_messages Hn Hwf).
  now rewrite Hh, Hb.
Qed.

(** C8.  A message queued before the handshake whose byte ranges have
    sizes that sum to its declared length [L] is stored, at its place in
    the queue, as one buffer of exactly [L] bytes: the ranges laid end to
    end, in order, whole. *)
Theorem queued_buffer_is_concatenation
    (p : @PseudoSSLPriv NiceAddress B) messages n_messages k m vs :
  handshaken p = false ->
  0 <= n_messages <= Z.of_nat (List.length messages) ->
  forallb well_formed (firstn (Z.to_nat n_messages) messages) = true ->
  nth_error messages k = Some m ->
  Z.of_nat k < n_messages ->
  message_vectors m = Some vs ->
  total_size vs = msg_length m ->
  exists p',
    socket_send_messages nice_address_zero p messages n_messages
    = Returns TRUE p' []
    /\ nth_error (send_queue p') (List.length (send_queue p) + k)
       = Some {| buf := concat (map vector_bytes vs);
                 tbs_length := msg_length m;
                 tbs_to := match msg_to m with
                           | Some a => a
                           | None => nice_address_zero
                           end |}
    /\ sizeof (concat (map vector_bytes vs)) = msg_length m.
Proof.
  intros Hh Hn Hwf Hk Hkn Hvs Htot.
  assert (Hkm : nth_error (firstn (Z.to_nat n_messages) messages) k = Some m).
  { rewrite nth_error_firstn.
    destruct (Nat.ltb_spec k (Z.to_nat n_messages)); [exact Hk|lia]. }
  assert (Hm : well_formed m = true).
  { rewrite forallb_forall in Hwf. apply Hwf.
    eapply nth_error_In. exact Hkm. }
  unfold well_formed in Hm. apply andb_true_iff in Hm as [Hvalid _].
  destruct (valid_message_inv m vs Hvalid Hvs) as [HL Hvalid_vs].
  pose proof (length_message_bytes vs Hvalid_vs) as Hlen.
  eexists. split; [|split].
  - unfold socket_send_messages. rewrite Hh.
    rewrite (add_to_be_sent_well_formed p messages n_messages Hn Hwf).
    reflexivity.
  - cbn [send_queue].
    rewrite nth_error_app2 by lia.
    replace (List.length (send_queue p) + k - List.length (send_queue p))%nat
      with k by lia.
    rewrite (map_nth_error _ _ _ Hkm).
    rewrite (compacted_covered m vs Hvs).
    rewrite firstn_all2; [reflexivity|].
    unfold sizeof in Hlen. lia.
  - lia.
Qed.

(** C9.  On a message the loop can read, the byte count the copy loop ends
    with equals the declared length exactly when the buffers jointly hold
    at least that many bytes.  When they hold fewer the assertion fails and
    the call aborts; when they hold enough the call returns. *)
Theorem assertion_holds_iff_covered (p : @PseudoSSLPriv NiceAddress B) m vs :
  valid_message m = true ->
  message_vectors m = Some vs ->
  exists offset bytes,
    copy_buffers (n_buffers m) (msg_length m) (buffers m) 0 0 []
    = Some (offset, bytes)
    /\ (offset = msg_length m <-> msg_length m <= total_size vs)
    /\ (total_size vs < msg_length m ->
        add_to_be_sent nice_address_zero p [m] 1 = Aborts)
    /\ (msg_length m <= total_size vs ->
        exists p', add_to_be_sent nice_address_zero p [m] 1 = Returns tt p' []).
Proof.
  intros Hvalid Hvs.
  pose proof (copy_buffers_message m vs Hvalid Hvs) as Hcopy.
  eexists. eexists. split; [exact Hcopy|]. split; [lia|]. split.
  - intros Hlt. unfold add_to_be_sent.
    cbn [add_to_be_sent_from]. simpl (0 <? 1).
    rewrite Hcopy.
    destruct (Z.eqb_spec (Z.min (msg_length m) (total_size vs))
                (msg_length m)); [lia|reflexivity].
  - intros Hle. unfold add_to_be_sent.
    cbn [add_to_be_sent_from]. simpl (0 <? 1).
    rewrite Hcopy.
    destruct (Z.eqb_spec (Z.min (msg_length m) (total_size vs))
                (msg_length m)); [|lia].
    simpl (0 + 1 <? 1). eexists. reflexivity.
Qed.

End Sending.

(** ** Construction and receiving *)

Section Receiving.

Context {NiceAddress GSocket : Type} (nice_address_zero : NiceAddress).
Context {B : Type} {base_ops : @NiceSocketOps NiceAddress GSocket B}.

(** C3, as amended.  Construction makes exactly one call on the wrapped
    socket: a send with no destination whose payload is the fixed client
    handshake record, which is 72 bytes long; the decorator it returns is
    not handshaken, has an empty queue and carries the identity of the
    wrapped socket. *)
Theorem construction_sends_client_handshake (base : B) :
  nice_pseudossl_socket_new base
  = ({| fileno := sock_fileno base;
        addr := sock_addr base;
        priv := {| handshaken := false;
                   base_socket :=
                     Some (fst (nice_socket_send base None 72
                                  SSL_CLIENT_HANDSHAKE));
                   send_queue := [] |} |},
     [Send None 72 SSL_CLIENT_HANDSHAKE])
  /\ sizeof SSL_CLIENT_HANDSHAKE = 72.
Proof.
  split; [|reflexivity].
  unfold nice_pseudossl_socket_new. rewrite sizeof_SSL_CLIENT_HANDSHAKE.
  now destruct (nice_socket_send base None 72 SSL_CLIENT_HANDSHAKE).
Qed.

(** *** The flush *)

Lemma flush_queue_trace (base : B) queue :
  snd (flush_queue base queue)
  = flat_map
      (fun tbs =>
         [Send (Some (tbs_to tbs)) (tbs_length tbs) (buf tbs);
          GFree (buf tbs); SliceFreeTbs tbs])
      queue.
Proof.
  revert base. induction queue as [|tbs queue IH]; intros base; simpl.
  - reflexivity.
  - destruct (nice_socket_send base (Some (tbs_to tbs)) (tbs_length tbs)
                (buf tbs)) as [base1 r].
    specialize (IH base1).
    destruct (flush_queue base1 queue) as [base2 t]. simpl in *.
    now rewrite IH.
Qed.

(** The base socket after the flush is the one left by the sends made one
    after the other, first entry first. *)
Lemma flush_queue_state (base : B) queue :
  fst (flush_queue base queue)
  = fold_left
      (fun b tbs =>
         fst (nice_socket_send b (Some (tbs_to tbs)) (tbs_length tbs)
                (buf tbs)))
      queue base.
Proof.
  revert base. induction queue as [|tbs queue IH]; intros base; simpl.
  - reflexivity.
  - destruct (nice_socket_send base (Some (tbs_to tbs)) (tbs_length tbs)
                (buf tbs)) as [base1 r].
    specialize (IH base1).
    destruct (flush_queue base1 queue) as [base2 t]. simpl in *.
    exact IH.
Qed.

Lemma freed_entries_flush (queue : list (@to_be_sent NiceAddress)) :
  freed_entries
    (flat_map
       (fun tbs =>
          [Send (Some (tbs_to tbs)) (tbs_length tbs) (buf tbs);
           GFree (buf tbs); SliceFreeTbs tbs])
       queue)
  = queue.
Proof. induction queue as [|tbs queue IH]; simpl; congruence. Qed.

Lemma sends_flush (queue : list (@to_be_sent NiceAddress)) :
  sends
    (flat_map
       (fun tbs =>
          [Send (Some (tbs_to tbs)) (tbs_length tbs) (buf tbs);
           GFree (buf tbs); SliceFreeTbs tbs])
       queue)
  = map (fun tbs => Send (Some (tbs_to tbs)) (tbs_length tbs) (buf tbs))
      queue.
Proof. induction queue as [|tbs queue IH]; simpl; congruence. Qed.

(** *** The handshake test *)

Lemma handshake_received_match (v : GInputVector) :
  in_size v = sizeof SSL_SERVER_HANDSHAKE ->
  in_buffer v = SSL_SERVER_HANDSHAKE ->
  handshake_received 1 v = Some true.
Proof.
  intros Hs Hb. unfold handshake_received. rewrite Hs, Hb.
  rewrite Z.eqb_refl. reflexivity.
Qed.

Lemma handshake_received_mismatch ret (v : GInputVector) :
  ret <> 1
  \/ in_size v <> sizeof SSL_SERVER_HANDSHAKE
  \/ (sizeof (in_buffer v) = sizeof SSL_SERVER_HANDSHAKE
      /\ in_buffer v <> SSL_SERVER_HANDSHAKE) ->
  handshake_received ret v = Some false.
Proof.
  intros H. unfold handshake_received.
  destruct (Z.eqb_spec ret 1) as [->|]; [|reflexivity]. simpl negb.
  destruct (Z.eqb_spec (in_size v) (sizeof SSL_SERVER_HANDSHAKE)) as [Es|];
    [|reflexivity].
  simpl negb.
  destruct H as [H|[H|[Hlen Hne]]]; try contradiction.
  destruct (memcmp_full SSL_SERVER_HANDSHAKE (in_buffer v)
              (Z.to_nat (sizeof SSL_SERVER_HANDSHAKE)))
    as (c & Hc & Hiff).
  - reflexivity.
  - unfold sizeof in *. lia.
  - rewrite Hc. destruct (Z.eqb_spec c 0) as [->|]; [|reflexivity].
    exfalso. apply Hne. symmetry. now apply Hiff.
Qed.

(** *** Receiving before the handshake *)

(** The receive call when the server handshake record is read, whatever
    the sends of the flush return. *)
Lemma recv_handshake (data : list byte) (p : PseudoSSLPriv) base
    recv_messages n_recv_messages base' after :
  handshaken p = false ->
  base_socket p = Some base ->
  nice_socket_recv_messages base [local_recv_message data] 1
  = (base', (1, after)) ->
  in_size (local_buf_after (local_recv_buf data) after)
  = sizeof SSL_SERVER_HANDSHAKE ->
  in_buffer (local_buf_after (local_recv_buf data) after)
  = SSL_SERVER_HANDSHAKE ->
  socket_recv_messages data p recv_messages n_recv_messages
  = Returns (0, recv_messages)
      {| handshaken := true;
         base_socket := Some (fst (flush_queue base' (send_queue p)));
         send_queue := [] |}
      (RecvMessages [local_recv_message data] 1
         :: flat_map
              (fun tbs =>
                 [Send (Some (tbs_to tbs)) (tbs_length tbs) (buf tbs);
                  GFree (buf tbs); SliceFreeTbs tbs])
              (send_queue p)).
Proof.
  intros Hh Hb Hrecv Hsize Hbytes.
  unfold socket_recv_messages. rewrite Hh, Hb, Hrecv. simpl (1 <=? 0).
  cbv iota.
  rewrite (handshake_received_match _ Hsize Hbytes).
  pose proof (flush_queue_trace base' (send_queue p)) as Ht.
  destruct (flush_queue base' (send_queue p)) as [base'' t'].
  simpl in Ht. subst t'. reflexivity.
Qed.

(** C1.  A receive call made before the handshake with the base socket
    present, where the receive on the base socket returns [1] and leaves
    the receive vector with the size and the bytes of the server handshake
    record: the decorator becomes handshaken; the calls it makes after the
    receive are, for each queued entry from the head of the queue to its
    tail, one send of the entry's buffer to the entry's stored destination
    followed by the release of the entry; the queue is left empty, the
    base socket is the one these sends leave, and the call returns [0]. *)
Theorem handshake_recognised (data : list byte) (p : PseudoSSLPriv) base
    recv_messages n_recv_messages base' after :
  handshaken p = false ->
  base_socket p = Some base ->
  nice_socket_recv_messages base [local_recv_message data] 1
  = (base', (1, after)) ->
  in_size (local_buf_after (local_recv_buf data) after)
  = sizeof SSL_SERVER_HANDSHAKE ->
  in_buffer (local_buf_after (local_recv_buf data) after)
  = SSL_SERVER_HANDSHAKE ->
  socket_recv_messages data p recv_messages n_recv_messages
  = Returns (0, recv_messages)
      {| handshaken := true;
         base_socket :=
           Some (fold_left
                   (fun b tbs =>
                      fst (nice_socket_send b (Some (tbs_to tbs))
                             (tbs_length tbs) (buf tbs)))
                   (send_queue p) base');
         send_queue := [] |}
      (RecvMessages [local_recv_message data] 1
         :: flat_map
              (fun tbs =>
                 [Send (Some (tbs_to tbs)) (tbs_length tbs) (buf tbs);
                  GFree (buf tbs); SliceFreeTbs tbs])
              (send_queue p)).
Proof.
  intros Hh Hb Hrecv Hsize Hbytes.
  rewrite (recv_handshake data p base recv_messages n_recv_messages
             base' after Hh Hb Hrecv Hsize Hbytes).
  now rewrite flush_queue_state.
Qed.

Lemma recv_poisoned (data : list byte) (p : PseudoSSLPriv)
    recv_messages n_recv_messages :
  handshaken p = false ->
  base_socket p = None ->
  socket_recv_messages data p recv_messages n_recv_messages
  = Returns (-1, recv_messages) p [].
Proof.
  intros Hh Hb. unfold socket_recv_messages. rewrite Hh, Hb. simpl.
  destruct p as [h b q]. simpl in *. now subst.
Qed.

(** C4, as amended.  A receive call made before the handshake with the
    base socket absent returns [-1], a failure; it makes no call and leaves
    the decorator as it was. *)
Theorem recv_when_poisoned_fails (data : list byte) (p : PseudoSSLPriv)
    recv_messages n_recv_messages :
  handshaken p = false ->
  base_socket p = None ->
  socket_recv_messages data p recv_messages n_recv_messages
  = Returns (-1, recv_messages) p [].
Proof. exact (recv_poisoned data p recv_messages n_recv_messages). Qed.

(** C7, as amended.  A receive call made on a handshaken decorator whose
    base socket is absent returns [0], the empty result, with no call made
    and the decorator unchanged. *)
Theorem recv_handshaken_without_base_is_empty (data : list byte)
    (p : PseudoSSLPriv) recv_messages n_recv_messages :
  handshaken p = true ->
  base_socket p = None ->
  socket_recv_messages data p recv_messages n_recv_messages
  = Returns (0, recv_messages) p [].
Proof.
  intros Hh Hb. unfold socket_recv_messages. now rewrite Hh, Hb.
Qed.

(** *** What the calls preserve *)

Lemma add_to_be_sent_keeps (p p' : @PseudoSSLPriv NiceAddress B)
    messages n_messages r t :
  add_to_be_sent nice_address_zero p messages n_messages = Returns r p' t ->
  handshaken p' = handshaken p /\ base_socket p' = base_socket p.
Proof.
  unfold add_to_be_sent.
  destruct (add_to_be_sent_from nice_address_zero messages 0 n_messages
              (send_queue p)); intros H; try discriminate.
  injection H as _ <- _. split; reflexivity.
Qed.

(** A poisoned decorator stays poisoned. *)
Lemma step_keeps_poisoned (p p' : PseudoSSLPriv) :
  handshaken p = false -> base_socket p = None -> step nice_address_zero p p' ->
  handshaken p' = false /\ base_socket p' = None.
Proof.
  intros Hh Hb [data ms n r t H|ms n r t H].
  - rewrite (recv_poisoned data p ms n Hh Hb) in H.
    injection H as _ <- _. split; assumption.
  - unfold socket_send_messages in H. rewrite Hh in H.
    destruct (add_to_be_sent nice_address_zero p ms n) as [u q t'| |] eqn:E;
      try discriminate.
    injection H as _ <- _.
    destruct (add_to_be_sent_keeps _ _ _ _ _ _ E) as [E1 E2].
    split; congruence.
Qed.

Lemma reaches_keeps_poisoned (p p' : PseudoSSLPriv) :
  handshaken p = false -> base_socket p = None ->
  reaches nice_address_zero p p' ->
  handshaken p' = false /\ base_socket p' = None.
Proof.
  intros Hh Hb Hr. induction Hr as [|q q' _ IH Hstep].
  - split; assumption.
  - destruct IH as [IH1 IH2]. exact (step_keeps_poisoned q q' IH1 IH2 Hstep).
Qed.

(** What the handshake test does reject.  A receive call made before the
    handshake with the base socket present, where the receive on the base
    socket returns a positive count and the test of the code fails (the
    count is not [1], or the [size] field of the receive vector is not that
    of the record once the call is over, or the bytes of the whole receive
    array differ from the record): the base socket is released and marked
    absent, the call returns [-1], and no later sequence of calls makes the
    decorator handshaken.  The number of bytes received, which the base
    socket leaves in the [length] of the message, plays no part. *)
Theorem handshake_mismatch_poisons (data : list byte) (p : PseudoSSLPriv)
    base recv_messages n_recv_messages base' ret after :
  handshaken p = false ->
  base_socket p = Some base ->
  nice_socket_recv_messages base [local_recv_message data] 1
  = (base', (ret, after)) ->
  0 < ret ->
  ret <> 1
  \/ in_size (local_buf_after (local_recv_buf data) after)
     <> sizeof SSL_SERVER_HANDSHAKE
  \/ (sizeof (in_buffer (local_buf_after (local_recv_buf data) after))
      = sizeof SSL_SERVER_HANDSHAKE
      /\ in_buffer (local_buf_after (local_recv_buf data) after)
         <> SSL_SERVER_HANDSHAKE) ->
  socket_recv_messages data p recv_messages n_recv_messages
  = Returns (-1, recv_messages)
      {| handshaken := false;
         base_socket := None;
         send_queue := send_queue p |}
      [RecvMessages [local_recv_message data] 1; SocketFree]
  /\ forall p',
       reaches nice_address_zero
         {| handshaken := false;
            base_socket := None;
            send_queue := send_queue p |}
         p' ->
       handshaken p' = false.
Proof.
  intros Hh Hb Hrecv Hret Hbad. split.
  - unfold socket_recv_messages. rewrite Hh, Hb, Hrecv.
    destruct (Z.leb_spec ret 0); [lia|]. cbv iota.
    now rewrite (handshake_received_mismatch _ _ Hbad).
  - intros p' Hr.
    apply (reaches_keeps_poisoned _ p') in Hr; [|reflexivity|reflexivity].
    now destruct Hr.
Qed.

(** A handshaken decorator has its base socket: no call takes a decorator
    that satisfies this to one that does not. *)
Lemma step_keeps_base (p p' : PseudoSSLPriv) :
  (handshaken p = true -> base_socket p <> None) ->
  step nice_address_zero p p' ->
  handshaken p' = true -> base_socket p' <> None.
Proof.
  intros Hinv [data ms n r t H|ms n r t H] Hh'.
  - unfold socket_recv_messages in H.
    destruct (handshaken p) eqn:Hh.
    + destruct (base_socket p) as [base|] eqn:Hb.
      * destruct (nice_socket_recv_messages base ms n) as [base' r'].
        injection H as _ <- _. simpl. discriminate.
      * exfalso. now apply Hinv.
    + destruct (base_socket p) as [base|] eqn:Hb.
      * destruct (nice_socket_recv_messages base [local_recv_message data] 1)
          as [base' [ret after]].
        destruct (ret <=? 0).
        -- injection H as _ <- _. simpl in Hh'. discriminate.
        -- destruct (handshake_received ret
                       (local_buf_after (local_recv_buf data) after))
             as [[|]|]; try discriminate.
           ++ destruct (flush_queue base' (send_queue p)) as [base'' t'].
              injection H as _ <- _. simpl. discriminate.
           ++ injection H as _ <- _. simpl in Hh'. discriminate.
      * simpl in H. injection H as _ <- _. simpl in Hh'. discriminate.
  - unfold socket_send_messages in H.
    destruct (handshaken p) eqn:Hh.
    + destruct (base_socket p) as [base|] eqn:Hb.
      * destruct (nice_socket_send_messages base ms n) as [base' r'].
        injection H as _ <- _. simpl. discriminate.
      * exfalso. now apply Hinv.
    + destruct (add_to_be_sent nice_address_zero p ms n) as [u q t'| |] eqn:E;
        try discriminate.
      injection H as _ <- _.
      destruct (add_to_be_sent_keeps _ _ _ _ _ _ E) as [E1 E2].
      congruence.
Qed.

(** The state "handshaken with the base socket absent" is never entered by
    a decorator that [nice_pseudossl_socket_new] built. *)
Lemma handshaken_has_base_socket (base : B) (p : PseudoSSLPriv) :
  reaches nice_address_zero (priv (fst (nice_pseudossl_socket_new base))) p ->
  handshaken p = true -> base_socket p <> None.
Proof.
  intros Hr. induction Hr as [|q q' _ IH Hstep].
  - unfold nice_pseudossl_socket_new.
    destruct (nice_socket_send base None (sizeof SSL_CLIENT_HANDSHAKE)
                SSL_CLIENT_HANDSHAKE).
    simpl. discriminate.
  - exact (step_keeps_base q q' IH Hstep).
Qed.

End Receiving.

(** ** The results of the flush's sends *)

Section Flush.

Context {NiceAddress GSocket B : Type}.
Context {base_ops : @NiceSocketOps NiceAddress GSocket B}.

Lemma fold_left_ext {S E : Type} (f g : S -> E -> S) l :
  (forall s e, f s e = g s e) ->
  forall s, fold_left f l s = fold_left g l s.
Proof.
  intros H. induction l as [|e l IH]; intros s; simpl; [reflexivity|].
  now rewrite H, IH.
Qed.

(** C10.  In the flush made when the server handshake record is read, the
    value each send returns is ignored: every queued entry is sent once,
    in order, and released, the queue is left empty and the receive call
    returns [0]; and the call does exactly the same on any base socket that
    differs only in the values its sends return, failures included. *)
Theorem flush_ignores_send_results (data : list byte) (p : PseudoSSLPriv)
    base recv_messages n_recv_messages base' after :
  handshaken p = false ->
  base_socket p = Some base ->
  nice_socket_recv_messages base [local_recv_message data] 1
  = (base', (1, after)) ->
  in_size (local_buf_after (local_recv_buf data) after)
  = sizeof SSL_SERVER_HANDSHAKE ->
  in_buffer (local_buf_after (local_recv_buf data) after)
  = SSL_SERVER_HANDSHAKE ->
  (exists base'' t,
      socket_recv_messages data p recv_messages n_recv_messages
      = Returns (0, recv_messages)
          {| handshaken := true;
             base_socket := Some base'';
             send_queue := [] |}
          t
      /\ freed_entries t = send_queue p
      /\ sends t
         = map (fun tbs => Send (Some (tbs_to tbs)) (tbs_length tbs) (buf tbs))
             (send_queue p))
  /\ forall other_ops : @NiceSocketOps NiceAddress GSocket B,
      (forall b to len bytes,
          fst (@nice_socket_send _ _ _ other_ops b to len bytes)
          = fst (@nice_socket_send _ _ _ base_ops b to len bytes)) ->
      (forall b ms n,
          @nice_socket_recv_messages _ _ _ other_ops b ms n
          = @nice_socket_recv_messages _ _ _ base_ops b ms n) ->
      @socket_recv_messages _ _ _ other_ops data p recv_messages
        n_recv_messages
      = @socket_recv_messages _ _ _ base_ops data p recv_messages
          n_recv_messages.
Proof.
  intros Hh Hb Hrecv Hsize Hbytes.
  pose proof (recv_handshake data p base recv_messages n_recv_messages
                base' after Hh Hb Hrecv Hsize Hbytes) as Hmine.
  split.
  - eexists. eexists. split; [exact Hmine|]. split.
    + simpl. apply freed_entries_flush.
    + simpl. apply sends_flush.
  - intros other_ops Hsend Hrecv_same.
    rewrite Hmine.
    rewrite (@recv_handshake _ _ _ other_ops data p base recv_messages
               n_recv_messages base' after Hh Hb);
      [|rewrite Hrecv_same; exact Hrecv|exact Hsize|exact Hbytes].
    rewrite !flush_queue_state.
    f_equal. f_equal. f_equal.
    apply fold_left_ext. intros b tbs. apply Hsend.
Qed.

End Flush.

(** * The theorems on concrete inputs *)

(** The handshake is recognised with two sends queued; both sends fail. *)
Lemma handshake_recognised_witness :
  socket_recv_messages stale_data (waiting_on answering_socket) [] 0
  = Returns (0, [])
      {| handshaken := true;
         base_socket := Some {| incoming := []; send_result := -1 |};
         send_queue := [] |}
      [RecvMessages [local_recv_message stale_data] 1;
       Send (Some 7) 5 [x68; x65; x6c; x6c; x6f];
       GFree [x68; x65; x6c; x6c; x6f]; SliceFreeTbs hello_entry;
       Send (Some 0) 3 [x62; x79; x65];
       GFree [x62; x79; x65]; SliceFreeTbs bye_entry].
Proof.
  exact (handshake_recognised stale_data (waiting_on answering_socket)
           answering_socket [] 0
           {| incoming := []; send_result := -1 |}
           [{| in_buffers :=
                 [{| in_buffer := SSL_SERVER_HANDSHAKE; in_size := 79 |}];
               in_n_buffers := 1; in_from := None; in_length := 79 |}]
           eq_refl eq_refl eq_refl eq_refl eq_refl).
Defined.

Lemma send_before_handshake_queues_witness :
  socket_send_messages 0 (waiting_on answering_socket)
    [scattered_message; terminated_message] 2
  = Returns TRUE
      {| handshaken := false;
         base_socket := Some answering_socket;
         send_queue :=
           [hello_entry; bye_entry; hello_entry;
            {| buf := [x68; x65; x6c; x6c; x6f];
               tbs_length := 5; tbs_to := 0 |}] |}
      [].
Proof.
  apply (send_before_handshake_queues 0 (waiting_on answering_socket)
           [scattered_message; terminated_message] 2).
  - reflexivity.
  - simpl. lia.
  - reflexivity.
Defined.

(** C3, as stated, fails: the one send of the construction carries 72
    bytes, not 71. *)
Lemma construction_payload_is_not_71_bytes :
  ~ (exists payload,
        snd (nice_pseudossl_socket_new answering_socket)
        = [Send None (sizeof payload) payload]
        /\ payload = SSL_CLIENT_HANDSHAKE
        /\ sizeof payload = 71
        /\ handshaken (priv (fst (nice_pseudossl_socket_new answering_socket)))
           = false).
Proof.
  intros (payload & _ & -> & Hlen & _). vm_compute in Hlen. discriminate.
Qed.

(** C4, as stated, fails: on a poisoned decorator the receive does not
    return [0]. *)
Lemma recv_when_poisoned_is_not_zero :
  ~ (exists after p' t,
        socket_recv_messages stale_data poisoned_priv [] 0
        = Returns (0, after) p' t).
Proof.
  intros (after & p' & t & H). vm_compute in H. discriminate.
Qed.

Lemma recv_when_poisoned_fails_witness :
  socket_recv_messages stale_data poisoned_priv [] 0
  = Returns (-1, []) poisoned_priv [].
Proof.
  apply (recv_when_poisoned_fails stale_data poisoned_priv [] 0); reflexivity.
Defined.

Lemma handshake_mismatch_poisons_witness :
  socket_recv_messages stale_data (waiting_on echoing_socket) [] 0
  = Returns (-1, [])
      {| handshaken := false;
         base_socket := None;
         send_queue := [hello_entry; bye_entry] |}
      [RecvMessages [local_recv_message stale_data] 1; SocketFree]
  /\ forall p',
       reaches 0
         {| handshaken := false;
            base_socket := None;
            send_queue := [hello_entry; bye_entry] |}
         p' ->
       handshaken p' = false.
Proof.
  apply (handshake_mismatch_poisons 0 stale_data (waiting_on echoing_socket)
           echoing_socket [] 0
           {| incoming := []; send_result := 5 |} 1
           [{| in_buffers :=
                 [{| in_buffer := SSL_CLIENT_HANDSHAKE; in_size := 72 |}];
               in_n_buffers := 1; in_from := None; in_length := 72 |}]).
  - reflexivity.
  - reflexivity.
  - reflexivity.
  - lia.
  - right. left. vm_compute. discriminate.
Defined.

(** C6, as stated, fails: on a poisoned decorator the send does not report
    a failure. *)
Lemma send_after_poisoning_does_not_fail :
  ~ (exists r p' t,
        socket_send_messages 0 poisoned_priv [scattered_message] 1
        = Returns r p' t
        /\ r <= 0).
Proof.
  intros (r & p' & t & H & Hr). vm_compute in H.
  injection H as <- _ _. lia.
Qed.

Lemma send_after_poisoning_queues_witness :
  socket_send_messages 0 poisoned_priv [scattered_message] 1
  = Returns TRUE
      {| handshaken := false;
         base_socket := None;
         send_queue := [hello_entry] |}
      [].
Proof.
  apply (send_after_poisoning_queues 0 poisoned_priv [scattered_message] 1).
  - reflexivity.
  - reflexivity.
  - simpl. lia.
  - reflexivity.
Defined.

(** C7, as stated, fails: on a handshaken decorator without its base socket
    the receive does not report a failure. *)
Lemma recv_handshaken_without_base_does_not_fail :
  ~ (exists r after p' t,
        socket_recv_messages stale_data orphaned_priv [] 0
        = Returns (r, after) p' t
        /\ r < 0).
Proof.
  intros (r & after & p' & t & H & Hr). vm_compute in H.
  injection H as <- _ _ _. lia.
Qed.

Lemma recv_handshaken_without_base_is_empty_witness :
  socket_recv_messages stale_data orphaned_priv [] 0
  = Returns (0, []) orphaned_priv [].
Proof.
  apply (recv_handshaken_without_base_is_empty stale_data orphaned_priv [] 0);
    reflexivity.
Defined.

Lemma queued_buffer_is_concatenation_witness :
  exists p',
    socket_send_messages 0 (waiting_on answering_socket)
      [scattered_message; terminated_message] 2
    = Returns TRUE p' []
    /\ nth_error (send_queue p') 3
       = Some {| buf := [x68; x65; x6c; x6c; x6f];
                 tbs_length := 5; tbs_to := 0 |}
    /\ sizeof [x68; x65; x6c; x6c; x6f] = 5.
Proof.
  assert (Hn : 0 <= 2
               <= Z.of_nat
                    (List.length [scattered_message; terminated_message]))
    by (simpl; lia).
  exact (queued_buffer_is_concatenation 0 (waiting_on answering_socket)
           [scattered_message; terminated_message] 2 1 terminated_message
           [ {| buffer := Some [x68; x65]; size := 2 |};
             {| buffer := Some [x6c; x6c; x6f]; size := 3 |} ]
           eq_refl Hn eq_refl eq_refl eq_refl eq_refl eq_refl).
Defined.

(** Three bytes for five declared: the assertion fails.  Five bytes for
    five declared: the call returns. *)
Lemma assertion_holds_iff_covered_witness :
  add_to_be_sent 0 poisoned_priv [short_message] 1 = Aborts
  /\ exists p', add_to_be_sent 0 poisoned_priv [scattered_message] 1
                = Returns tt p' [].
Proof.
  split.
  - destruct (assertion_holds_iff_covered 0 poisoned_priv short_message
                [ {| buffer := Some [x68; x65; x6c]; size := 3 |} ]
                eq_refl eq_refl)
      as (offset & bytes & _ & _ & Habort & _).
    apply Habort. simpl. lia.
  - destruct (assertion_holds_iff_covered 0 poisoned_priv scattered_message
                [ {| buffer := Some [x68; x65]; size := 2 |};
                  {| buffer := Some [x6c; x6c; x6f]; size := 3 |} ]
                eq_refl eq_refl)
      as (offset & bytes & _ & _ & _ & Hreturns).
    apply Hreturns. simpl. lia.
Defined.

(** The flush with sends that all fail, and the same call on the socket
    whose sends all succeed. *)
Lemma flush_ignores_send_results_witness :
  (exists base'' t,
      @socket_recv_messages _ _ _ scripted_ops stale_data
        (waiting_on answering_socket) [] 0
      = Returns (0, [])
          {| handshaken := true;
             base_socket := Some base'';
             send_queue := [] |}
          t
      /\ freed_entries t = [hello_entry; bye_entry]
      /\ sends t
         = [Send (Some 7) 5 [x68; x65; x6c; x6c; x6f];
            Send (Some 0) 3 [x62; x79; x65]])
  /\ @socket_recv_messages _ _ _ succeeding_ops stale_data
       (waiting_on answering_socket) [] 0
     = @socket_recv_messages _ _ _ scripted_ops stale_data
         (waiting_on answering_socket) [] 0.
Proof.
  destruct (@flush_ignores_send_results _ _ _ scripted_ops stale_data
              (waiting_on answering_socket) answering_socket [] 0
              {| incoming := []; send_result := -1 |}
              [{| in_buffers :=
                    [{| in_buffer := SSL_SERVER_HANDSHAKE; in_size := 79 |}];
                  in_n_buffers := 1; in_from := None; in_length := 79 |}]
              eq_refl eq_refl eq_refl eq_refl eq_refl)
    as [Hflush Hsame].
  split.
  - exact Hflush.
  - apply (Hsame succeeding_ops); reflexivity.
Defined.

(** * Further properties *)

(** ** The state machine *)

Section StateMachine.

Context {NiceAddress GSocket : Type} (nice_address_zero : NiceAddress).
Context {B : Type} {base_ops : @NiceSocketOps NiceAddress GSocket B}.

Lemma step_handshaken_stays (p p' : @PseudoSSLPriv NiceAddress B) :
  step nice_address_zero p p' -> handshaken p = true -> handshaken p' = true.
Proof.
  intros [data ms n r t H|ms n r t H] Hh.
  - unfold socket_recv_messages in H. rewrite Hh in H.
    destruct (base_socket p) as [base|].
    + destruct (nice_socket_recv_messages base ms n) as [base' r'].
      injection H as _ <- _. reflexivity.
    + injection H as _ <- _. exact Hh.
  - unfold socket_send_messages in H. rewrite Hh in H.
    destruct (base_socket p) as [base|].
    + destruct (nice_socket_send_messages base ms n) as [base' r'].
      injection H as _ <- _. reflexivity.
    + injection H as _ <- _. exact Hh.
Qed.

(** X1.  The handshake is one-way: no sequence of receive and send calls
    takes a handshaken decorator back to the not-handshaken state. *)
Theorem handshaken_is_permanent (p p' : @PseudoSSLPriv NiceAddress B) :
  reaches nice_address_zero p p' ->
  handshaken p = true ->
  handshaken p' = true.
Proof.
  intros Hr Hh. induction Hr as [|q q' _ IH Hstep]; [exact Hh|].
  exact (step_handshaken_stays q q' Hstep IH).
Qed.

Lemma step_base_stays_absent (p p' : @PseudoSSLPriv NiceAddress B) :
  step nice_address_zero p p' -> base_socket p = None -> base_socket p' = None.
Proof.
  intros [data ms n r t H|ms n r t H] Hb.
  - unfold socket_recv_messages in H. rewrite Hb in H.
    destruct (handshaken p).
    + injection H as _ <- _. exact Hb.
    + simpl in H. injection H as _ <- _. reflexivity.
  - unfold socket_send_messages in H. rewrite Hb in H.
    destruct (handshaken p).
    + injection H as _ <- _. exact Hb.
    + destruct (add_to_be_sent nice_address_zero p ms n) as [u q t'| |] eqn:E;
        try discriminate.
      injection H as _ <- _.
      destruct (add_to_be_sent_keeps _ _ _ _ _ _ _ E) as [_ E2]. congruence.
Qed.

(** X2.  A base socket that has been released never comes back: once
    [base_socket] is NULL it is NULL after every later sequence of receive
    and send calls, whatever the handshake state. *)
Theorem released_base_never_returns (p p' : @PseudoSSLPriv NiceAddress B) :
  reaches nice_address_zero p p' ->
  base_socket p = None ->
  base_socket p' = None.
Proof.
  intros Hr Hb. induction Hr as [|q q' _ IH Hstep]; [exact Hb|].
  exact (step_base_stays_absent q q' Hstep IH).
Qed.

Lemma step_keeps_queue_empty (p p' : @PseudoSSLPriv NiceAddress B) :
  (handshaken p = true -> send_queue p = []) ->
  step nice_address_zero p p' ->
  handshaken p' = true -> send_queue p' = [].
Proof.
  intros Hinv [data ms n r t H|ms n r t H] Hh'.
  - unfold socket_recv_messages in H.
    destruct (handshaken p) eqn:Hh.
    + destruct (base_socket p) as [base|].
      * destruct (nice_socket_recv_messages base ms n) as [base' r'].
        injection H as _ <- _. simpl. now apply Hinv.
      * injection H as _ <- _. now apply Hinv.
    + destruct (base_socket p) as [base|].
      * destruct (nice_socket_recv_messages base [local_recv_message data] 1)
          as [base' [ret after]].
        destruct (ret <=? 0).
        -- injection H as _ <- _. simpl in Hh'. discriminate.
        -- destruct (handshake_received ret
                       (local_buf_after (local_recv_buf data) after))
             as [[|]|]; try discriminate.
           ++ destruct (flush_queue base' (send_queue p)) as [base'' t'].
              injection H as _ <- _. reflexivity.
           ++ injection H as _ <- _. simpl in Hh'. discriminate.
      * simpl in H. injection H as _ <- _. simpl in Hh'. discriminate.
  - unfold socket_send_messages in H.
    destruct (handshaken p) eqn:Hh.
    + destruct (base_socket p) as [base|].
      * destruct (nice_socket_send_messages base ms n) as [base' r'].
        injection H as _ <- _. simpl. now apply Hinv.
      * injection H as _ <- _. now apply Hinv.
    + destruct (add_to_be_sent nice_address_zero p ms n) as [u q t'| |] eqn:E;
        try discriminate.
      injection H as _ <- _.
      destruct (add_to_be_sent_keeps _ _ _ _ _ _ _ E) as [E1 _]. congruence.
Qed.

Lemma queue_empty_when_handshaken (base : B)
    (p : @PseudoSSLPriv NiceAddress B) :
  reaches nice_address_zero (priv (fst (nice_pseudossl_socket_new base))) p ->
  handshaken p = true -> send_queue p = [].
Proof.
  intros Hr. induction Hr as [|q q' _ IH Hstep].
  - unfold nice_pseudossl_socket_new.
    destruct (nice_socket_send base None (sizeof SSL_CLIENT_HANDSHAKE)
                SSL_CLIENT_HANDSHAKE).
    simpl. discriminate.
  - exact (step_keeps_queue_empty q q' IH Hstep).
Qed.

(** X3.  The queue holds entries only before the handshake: in every state
    a decorator built by [nice_pseudossl_socket_new] can reach, a handshaken
    decorator has an empty send queue. *)
Theorem queue_empty_once_handshaken (base : B)
    (p : @PseudoSSLPriv NiceAddress B) :
  reaches nice_address_zero (priv (fst (nice_pseudossl_socket_new base))) p ->
  handshaken p = true ->
  send_queue p = [].
Proof. exact (queue_empty_when_handshaken base p). Qed.

(** X4.  Once a decorator built by [nice_pseudossl_socket_new] is
    handshaken, it is a pure pass-through: its base socket is present, a
    receive returns what [nice_socket_recv_messages] returns on the caller's
    own messages, a send returns what [nice_socket_send_messages] returns,
    each makes that one call and nothing else, and the guard that returns
    [FALSE] for a missing base socket is never taken. *)
Theorem passthrough_after_handshake (base : B)
    (p : @PseudoSSLPriv NiceAddress B) :
  reaches nice_address_zero (priv (fst (nice_pseudossl_socket_new base))) p ->
  handshaken p = true ->
  exists b,
    base_socket p = Some b
    /\ (forall data recv_messages n_recv_messages,
           socket_recv_messages data p recv_messages n_recv_messages
           = Returns
               (snd (nice_socket_recv_messages b recv_messages
                       n_recv_messages))
               {| handshaken := true;
                  base_socket :=
                    Some (fst (nice_socket_recv_messages b recv_messages
                                 n_recv_messages));
                  send_queue := [] |}
               [RecvMessages recv_messages n_recv_messages])
    /\ (forall messages n_messages,
           socket_send_messages nice_address_zero p messages n_messages
           = Returns
               (snd (nice_socket_send_messages b messages n_messages))
               {| handshaken := true;
                  base_socket :=
                    Some (fst (nice_socket_send_messages b messages
                                 n_messages));
                  send_queue := [] |}
               [SendMessages messages n_messages]).
Proof.
  intros Hr Hh.
  pose proof (handshaken_has_base_socket nice_address_zero base p Hr Hh) as Hb.
  pose proof (queue_empty_when_handshaken base p Hr Hh) as Hq.
  destruct (base_socket p) as [b|] eqn:Eb; [|contradiction].
  exists b. split; [reflexivity|]. split.
  - intros data ms n. unfold socket_recv_messages. rewrite Hh, Eb, Hq.
    now destruct (nice_socket_recv_messages b ms n).
  - intros ms n. unfold socket_send_messages. rewrite Hh, Eb, Hq.
    now destruct (nice_socket_send_messages b ms n).
Qed.

(** X5.  Before the handshake a receive call never hands anything to its
    caller: whenever it returns, the value is zero or negative and the
    caller's messages are as they were, even when the base socket reported
    records; and it returns [0] whenever it leaves the decorator
    handshaken. *)
Theorem recv_before_handshake_delivers_nothing (data : list byte)
    (p : @PseudoSSLPriv NiceAddress B) recv_messages n_recv_messages
    r after p' t :
  handshaken p = false ->
  socket_recv_messages data p recv_messages n_recv_messages
  = Returns (r, after) p' t ->
  r <= 0 /\ after = recv_messages /\ (handshaken p' = true -> r = 0).
Proof.
  intros Hh H. unfold socket_recv_messages in H. rewrite Hh in H.
  destruct (base_socket p) as [base|].
  - destruct (nice_socket_recv_messages base [local_recv_message data] 1)
      as [base' [ret after']].
    destruct (Z.leb_spec ret 0).
    + injection H as <- <- <- _. simpl.
      split; [lia|]. split; [reflexivity|discriminate].
    + destruct (handshake_received ret
                  (local_buf_after (local_recv_buf data) after'))
        as [[|]|]; try discriminate.
      * destruct (flush_queue base' (send_queue p)) as [base'' t'].
        injection H as <- <- _ _.
        split; [lia|]. split; reflexivity.
      * injection H as <- <- <- _. simpl.
        split; [lia|]. split; [reflexivity|discriminate].
  - simpl in H. injection H as <- <- <- _. simpl.
    split; [lia|]. split; [reflexivity|discriminate].
Qed.

(** X6.  A receive that finds no data, or an error, on the base socket
    (a count of zero or less) loses nothing: it returns that count, and a
    later receive that reads the server handshake record flushes the whole
    queue as it stood, head first. *)
Theorem no_data_then_handshake_flushes_queue (data data' : list byte)
    (p : @PseudoSSLPriv NiceAddress B) base recv_messages n_recv_messages
    recv_messages' n_recv_messages' base1 r0 after0 base2 after1 :
  handshaken p = false ->
  base_socket p = Some base ->
  nice_socket_recv_messages base [local_recv_message data] 1
  = (base1, (r0, after0)) ->
  r0 <= 0 ->
  nice_socket_recv_messages base1 [local_recv_message data'] 1
  = (base2, (1, after1)) ->
  in_size (local_buf_after (local_recv_buf data') after1)
  = sizeof SSL_SERVER_HANDSHAKE ->
  in_buffer (local_buf_after (local_recv_buf data') after1)
  = SSL_SERVER_HANDSHAKE ->
  exists p1,
    socket_recv_messages data p recv_messages n_recv_messages
    = Returns (r0, recv_messages) p1 [RecvMessages [local_recv_message data] 1]
    /\ socket_recv_messages data' p1 recv_messages' n_recv_messages'
       = Returns (0, recv_messages')
           {| handshaken := true;
              base_socket := Some (fst (flush_queue base2 (send_queue p)));
              send_queue := [] |}
           (RecvMessages [local_recv_message data'] 1
              :: flat_map
                   (fun tbs =>
                      [Send (Some (tbs_to tbs)) (tbs_length tbs) (buf tbs);
                       GFree (buf tbs); SliceFreeTbs tbs])
                   (send_queue p)).
Proof.
  intros Hh Hb Hrecv0 Hr0 Hrecv1 Hsize Hbytes.
  exists {| handshaken := false;
            base_socket := Some base1;
            send_queue := send_queue p |}.
  split.
  - unfold socket_recv_messages. rewrite Hh, Hb, Hrecv0.
    destruct (Z.leb_spec r0 0); [|lia]. reflexivity.
  - exact (recv_handshake data'
             {| handshaken := false;
                base_socket := Some base1;
                send_queue := send_queue p |}
             base1 recv_messages' n_recv_messages' base2 after1
             eq_refl eq_refl Hrecv1 Hsize Hbytes).
Qed.

End StateMachine.

(** ** Releasing the base socket and the queue *)

Section Resources.

Context {NiceAddress GSocket : Type} (nice_address_zero : NiceAddress).
Context {B : Type} {base_ops : @NiceSocketOps NiceAddress GSocket B}.

Lemma count_socket_free_app (t1 t2 : list (@event NiceAddress)) :
  (count_socket_free (t1 ++ t2)
   = count_socket_free t1 + count_socket_free t2)%nat.
Proof.
  induction t1 as [|e t1 IH]; simpl; [reflexivity|].
  destruct e; simpl; now rewrite IH.
Qed.

Lemma count_socket_free_flush (base : B) queue :
  count_socket_free (snd (flush_queue base queue)) = 0%nat.
Proof.
  rewrite flush_queue_trace.
  induction queue as [|tbs queue IH]; simpl; [reflexivity|exact IH].
Qed.

Lemma count_socket_free_queue (queue : list (@to_be_sent NiceAddress)) :
  count_socket_free (flat_map free_to_be_sent queue) = 0%nat.
Proof. induction queue as [|tbs queue IH]; simpl; [reflexivity|exact IH]. Qed.

Lemma freed_entries_app (t1 t2 : list (@event NiceAddress)) :
  freed_entries (t1 ++ t2) = freed_entries t1 ++ freed_entries t2.
Proof.
  induction t1 as [|e t1 IH]; simpl; [reflexivity|].
  destruct e; simpl; now rewrite IH.
Qed.

Lemma sends_app (t1 t2 : list (@event NiceAddress)) :
  sends (t1 ++ t2) = sends t1 ++ sends t2.
Proof.
  induction t1 as [|e t1 IH]; simpl; [reflexivity|].
  destruct e; simpl; now rewrite IH.
Qed.

Lemma close_count (p : @PseudoSSLPriv NiceAddress B) :
  count_socket_free (socket_close p)
  = match base_socket p with Some _ => 1%nat | None => 0%nat end.
Proof.
  unfold socket_close.
  rewrite !count_socket_free_app, count_socket_free_queue.
  destruct (base_socket p); reflexivity.
Qed.

(** X7.  Closing releases everything and sends nothing: [nice_socket_free]
    is called once when the base socket is present and not at all when it
    is absent, every entry still queued is released, in queue order, no
    queued payload is sent, and the private structure is released last. *)
Theorem close_releases_everything (p : @PseudoSSLPriv NiceAddress B) :
  count_socket_free (socket_close p)
  = match base_socket p with Some _ => 1%nat | None => 0%nat end
  /\ freed_entries (socket_close p) = send_queue p
  /\ sends (socket_close p) = []
  /\ exists t, socket_close p = t ++ [SliceFreePriv].
Proof.
  split; [exact (close_count p)|].
  unfold socket_close. repeat split.
  - rewrite !freed_entries_app.
    replace (freed_entries
               match base_socket p with
               | Some _ => [@SocketFree NiceAddress]
               | None => []
               end) with (@nil (@to_be_sent NiceAddress))
      by (destruct (base_socket p); reflexivity).
    simpl. rewrite app_nil_r.
    induction (send_queue p) as [|tbs q IH]; simpl; congruence.
  - rewrite !sends_app.
    replace (sends
               match base_socket p with
               | Some _ => [@SocketFree NiceAddress]
               | None => []
               end) with (@nil (@event NiceAddress))
      by (destruct (base_socket p); reflexivity).
    simpl. rewrite app_nil_r.
    induction (send_queue p) as [|tbs q IH]; simpl; congruence.
  - eexists. rewrite app_assoc. reflexivity.
Qed.

Lemma recv_free_count (data : list byte) (p p' : @PseudoSSLPriv NiceAddress B)
    recv_messages n_recv_messages r t :
  socket_recv_messages data p recv_messages n_recv_messages
  = Returns r p' t ->
  (count_socket_free t
   + match base_socket p' with Some _ => 1 | None => 0 end
   = match base_socket p with Some _ => 1 | None => 0 end)%nat.
Proof.
  unfold socket_recv_messages. intros H.
  destruct (handshaken p).
  - destruct (base_socket p) as [base|] eqn:Hb.
    + destruct (nice_socket_recv_messages base recv_messages n_recv_messages)
        as [base' r'].
      injection H as _ <- <-. reflexivity.
    + injection H as _ <- <-. now rewrite Hb.
  - destruct (base_socket p) as [base|] eqn:Hb.
    + destruct (nice_socket_recv_messages base [local_recv_message data] 1)
        as [base' [ret after]].
      destruct (ret <=? 0).
      * injection H as _ <- <-. reflexivity.
      * destruct (handshake_received ret
                    (local_buf_after (local_recv_buf data) after))
          as [[|]|]; try discriminate.
        -- pose proof (count_socket_free_flush base' (send_queue p)) as Hc.
           destruct (flush_queue base' (send_queue p)) as [base'' t'].
           injection H as _ <- <-. simpl in *. now rewrite Hc.
        -- injection H as _ <- <-. reflexivity.
    + simpl in H. injection H as _ <- <-. reflexivity.
Qed.

Lemma send_free_count (p p' : @PseudoSSLPriv NiceAddress B)
    messages n_messages r t :
  socket_send_messages nice_address_zero p messages n_messages
  = Returns r p' t ->
  (count_socket_free t
   + match base_socket p' with Some _ => 1 | None => 0 end
   = match base_socket p with Some _ => 1 | None => 0 end)%nat.
Proof.
  unfold socket_send_messages. intros H.
  destruct (handshaken p).
  - destruct (base_socket p) as [base|] eqn:Hb.
    + destruct (nice_socket_send_messages base messages n_messages)
        as [base' r'].
      injection H as _ <- <-. reflexivity.
    + injection H as _ <- <-. now rewrite Hb.
  - unfold add_to_be_sent in H.
    destruct (add_to_be_sent_from nice_address_zero messages 0 n_messages
                (send_queue p)); try discriminate.
    injection H as _ <- <-. reflexivity.
Qed.

Lemma runs_free_count (p p' : @PseudoSSLPriv NiceAddress B) t :
  runs nice_address_zero p t p' ->
  (count_socket_free t
   + match base_socket p' with Some _ => 1 | None => 0 end
   = match base_socket p with Some _ => 1 | None => 0 end)%nat.
Proof.
  intros Hr.
  induction Hr as [|t q data ms n r q' t' _ IH H|t q ms n r q' t' _ IH H].
  - reflexivity.
  - apply recv_free_count in H. rewrite count_socket_free_app. lia.
  - apply send_free_count in H. rewrite count_socket_free_app. lia.
Qed.

(** X8.  Over the whole life of a decorator built by
    [nice_pseudossl_socket_new], whatever receive and send calls are made
    before it is closed, [nice_socket_free] is called on the base socket
    exactly once: in the receive that sees the handshake fail, or else in
    the close. *)
Theorem base_socket_freed_exactly_once (base : B)
    (p : @PseudoSSLPriv NiceAddress B) t :
  runs nice_address_zero (priv (fst (nice_pseudossl_socket_new base))) t p ->
  count_socket_free (t ++ socket_close p) = 1%nat.
Proof.
  intros Hr. apply runs_free_count in Hr.
  rewrite count_socket_free_app.
  rewrite (close_count p).
  unfold nice_pseudossl_socket_new in Hr.
  destruct (nice_socket_send base None (sizeof SSL_CLIENT_HANDSHAKE)
              SSL_CLIENT_HANDSHAKE).
  simpl in Hr. exact Hr.
Qed.

End Resources.

(** ** The queue from submission to delivery *)

Section Delivery.

Context {NiceAddress GSocket : Type} (nice_address_zero : NiceAddress).
Context {B : Type} {base_ops : @NiceSocketOps NiceAddress GSocket B}.

Lemma memcpy_length (src : option (list byte)) len bytes :
  0 <= len -> memcpy src len = Some bytes -> sizeof bytes = len.
Proof.
  intros Hlen. unfold memcpy, sizeof. destruct src as [source|].
  - destruct (Z.leb_spec len (Z.of_nat (List.length source))) as [Hle|Hgt];
      [|discriminate].
    intros E. injection E as <-. rewrite length_firstn. lia.
  - destruct (Z.eqb_spec len 0) as [Hz|Hnz]; [|discriminate].
    intros E. injection E as <-. simpl. lia.
Qed.

(** Whenever the copy loop ends, the bytes it has stored are as many as the
    count it ends with, and never more than the declared length; only the
    ranges of the [gsize] fields are assumed. *)
Lemma copy_buffers_whole (vectors : list GOutputVector) nb L :
  0 <= L < 2 ^ 64 ->
  forallb (fun v => (0 <=? size v) && (size v <? 2 ^ 64)) vectors = true ->
  forall j offset dst o bytes,
    0 <= offset <= L ->
    sizeof dst = offset ->
    copy_buffers nb L vectors j offset dst = Some (o, bytes) ->
    sizeof bytes = o /\ o <= L.
Proof.
  intros HL. induction vectors as [|v vectors IH];
    intros Hrange j offset dst o bytes Hoff Hdst H; cbn [copy_buffers] in H.
  - destruct ((0 <=? nb) && (j <? nb)); [discriminate|].
    destruct (nb <? 0); [discriminate|].
    injection H as <- <-. split; [exact Hdst|lia].
  - simpl in Hrange. apply andb_true_iff in Hrange as [Hv Hrange].
    apply andb_true_iff in Hv as [Hv0 Hv1].
    apply Z.leb_le in Hv0. apply Z.ltb_lt in Hv1.
    destruct (((0 <=? nb) && (j <? nb))
              || ((nb <? 0)
                  && match buffer v with
                     | Some _ => true
                     | None => false
                     end)).
    + rewrite gsize_small, MIN_min in H by lia.
      destruct (memcpy (buffer v) (Z.min (L - offset) (size v)))
        as [copied|] eqn:E; [|discriminate].
      apply memcpy_length in E; [|lia].
      rewrite gsize_small in H by lia.
      apply (IH Hrange) in H; [exact H|lia|].
      unfold sizeof in *. rewrite length_app. lia.
    + injection H as <- <-. split; [exact Hdst|lia].
Qed.

Lemma add_to_be_sent_from_whole (messages : list NiceOutputMessage) :
  forallb in_range messages = true ->
  forall i n queue queue',
    forallb whole queue = true ->
    add_to_be_sent_from nice_address_zero messages i n queue = Queued queue' ->
    forallb whole queue' = true.
Proof.
  induction messages as [|m messages IH];
    intros Hrange i n queue queue' Hq H; cbn [add_to_be_sent_from] in H.
  - destruct (i <? n); [discriminate|]. injection H as <-. exact Hq.
  - destruct (i <? n); [|injection H as <-; exact Hq].
    simpl in Hrange. apply andb_true_iff in Hrange as [Hm Hrange].
    unfold in_range in Hm. apply andb_true_iff in Hm as [HL Hvs].
    apply andb_true_iff in HL as [HL0 HL1].
    apply Z.leb_le in HL0. apply Z.ltb_lt in HL1.
    destruct (copy_buffers (n_buffers m) (msg_length m) (buffers m) 0 0 [])
      as [[offset bytes]|] eqn:E; [|discriminate].
    apply copy_buffers_whole in E; try assumption; try lia; [|reflexivity].
    destruct (Z.eqb_spec offset (msg_length m)) as [Heq|]; [|discriminate].
    apply (IH Hrange) in H; [exact H|].
    rewrite forallb_app, Hq. simpl. unfold whole. simpl.
    destruct E as [E _]. rewrite E, Heq, Z.eqb_refl. reflexivity.
Qed.

(** X9.  No payload is ever queued in part: if every entry of the queue
    holds exactly its [length] bytes before a send call made ahead of the
    handshake, then so does every entry after it, whenever the call
    returns.  Only the ranges of the [gsize] fields of the messages are
    assumed, not that their buffers are long enough. *)
Theorem send_keeps_entries_whole (p p' : @PseudoSSLPriv NiceAddress B)
    messages n_messages r t :
  handshaken p = false ->
  forallb in_range messages = true ->
  forallb whole (send_queue p) = true ->
  socket_send_messages nice_address_zero p messages n_messages
  = Returns r p' t ->
  forallb whole (send_queue p') = true.
Proof.
  intros Hh Hrange Hq H. unfold socket_send_messages in H. rewrite Hh in H.
  unfold add_to_be_sent in H.
  destruct (add_to_be_sent_from nice_address_zero messages 0 n_messages
              (send_queue p)) as [queue'| |] eqn:E; try discriminate.
  injection H as _ <- _. simpl.
  exact (add_to_be_sent_from_whole messages Hrange 0 n_messages
           (send_queue p) queue' Hq E).
Qed.

(** X10.  A message whose buffers hold more bytes than its declared length
    is cut at that length: its queue entry holds the first [length] bytes of
    the buffers laid end to end, and exactly that many. *)
Theorem longer_buffers_are_truncated (p : @PseudoSSLPriv NiceAddress B) m vs :
  valid_message m = true ->
  message_vectors m = Some vs ->
  msg_length m <= total_size vs ->
  add_to_be_sent nice_address_zero p [m] 1
  = Returns tt
      {| handshaken := handshaken p;
         base_socket := base_socket p;
         send_queue :=
           send_queue p
           ++ [{| buf := firstn (Z.to_nat (msg_length m))
                           (concat (map vector_bytes vs));
                  tbs_length := msg_length m;
                  tbs_to := match msg_to m with
                            | Some a => a
                            | None => nice_address_zero
                            end |}] |}
      []
  /\ sizeof (firstn (Z.to_nat (msg_length m)) (concat (map vector_bytes vs)))
     = msg_length m.
Proof.
  intros Hvalid Hvs Hcov.
  destruct (valid_message_inv m vs Hvalid Hvs) as [HL Hvalid_vs].
  pose proof (length_message_bytes vs Hvalid_vs) as Hlen.
  split.
  - rewrite (add_to_be_sent_well_formed nice_address_zero p [m] 1).
    + simpl. now rewrite (compacted_covered nice_address_zero m vs Hvs).
    + simpl. lia.
    + simpl. unfold well_formed, covered. rewrite Hvalid, Hvs. simpl.
      rewrite andb_true_r. apply Z.leb_le. exact Hcov.
  - unfold sizeof in *. rewrite length_firstn. lia.
Qed.

(** A caller's send calls made before the handshake, one after the other,
    on well-formed messages: nothing reaches the base socket and the queue
    grows by the entries of each call, in order. *)
Lemma send_each_acceptable calls :
  forallb acceptable_call calls = true ->
  forall p : @PseudoSSLPriv NiceAddress B,
    handshaken p = false ->
    send_each nice_address_zero p calls
    = Returns tt
        {| handshaken := false;
           base_socket := base_socket p;
           send_queue :=
             send_queue p ++ flat_map (entries_of nice_address_zero) calls |}
        [].
Proof.
  induction calls as [|call calls IH]; intros Hcalls p Hh.
  - simpl. rewrite app_nil_r. destruct p as [h b q]. simpl in *. now subst.
  - simpl in Hcalls. apply andb_true_iff in Hcalls as [Hcall Hcalls].
    unfold acceptable_call in Hcall.
    apply andb_true_iff in Hcall as [Hn Hwf].
    apply andb_true_iff in Hn as [Hn0 Hn1].
    apply Z.leb_le in Hn0. apply Z.leb_le in Hn1.
    cbn [send_each]. unfold socket_send_messages. rewrite Hh.
    rewrite (add_to_be_sent_well_formed nice_address_zero p (fst call)
               (snd call) (conj Hn0 Hn1) Hwf).
    rewrite (IH Hcalls); [|exact Hh].
    simpl. unfold entries_of at 2. now rewrite <- app_assoc.
Qed.

(** X11.  Buffering until the handshake, end to end: a caller's send calls
    made before the handshake on well-formed messages reach the base socket
    not at all while they are made, and when a later receive reads the
    server handshake record the sends made on the base socket are exactly
    the entries queued before followed by those of each call, in submission
    order, each with its destination and its compacted payload. *)
Theorem buffered_sends_are_delivered_in_order (data : list byte)
    (p : @PseudoSSLPriv NiceAddress B) base calls
    recv_messages n_recv_messages base' after :
  handshaken p = false ->
  base_socket p = Some base ->
  forallb acceptable_call calls = true ->
  nice_socket_recv_messages base [local_recv_message data] 1
  = (base', (1, after)) ->
  in_size (local_buf_after (local_recv_buf data) after)
  = sizeof SSL_SERVER_HANDSHAKE ->
  in_buffer (local_buf_after (local_recv_buf data) after)
  = SSL_SERVER_HANDSHAKE ->
  exists p1 p2 t,
    send_each nice_address_zero p calls = Returns tt p1 []
    /\ socket_recv_messages data p1 recv_messages n_recv_messages
       = Returns (0, recv_messages) p2 t
    /\ handshaken p2 = true
    /\ send_queue p2 = []
    /\ sends t
       = map entry_send
           (send_queue p ++ flat_map (entries_of nice_address_zero) calls).
Proof.
  intros Hh Hb Hcalls Hrecv Hsize Hbytes.
  pose (p1 := {| handshaken := false;
                 base_socket := base_socket p;
                 send_queue :=
                   send_queue p
                   ++ flat_map (entries_of nice_address_zero) calls |}
              : @PseudoSSLPriv NiceAddress B).
  exists p1. eexists. eexists. split.
  - exact (send_each_acceptable calls Hcalls p Hh).
  - split.
    + exact (recv_handshake data p1 base recv_messages n_recv_messages
               base' after eq_refl Hb Hrecv Hsize Hbytes).
    + split; [reflexivity|]. split; [reflexivity|].
      cbn [sends]. apply sends_flush.
Qed.

Lemma sends_free_to_be_sent (q : list (@to_be_sent NiceAddress)) :
  sends (flat_map free_to_be_sent q) = [].
Proof. induction q as [|tbs q IH]; simpl; congruence. Qed.

Lemma freed_entries_free_to_be_sent (q : list (@to_be_sent NiceAddress)) :
  freed_entries (flat_map free_to_be_sent q) = q.
Proof. induction q as [|tbs q IH]; simpl; congruence. Qed.

(** X12.  Closing before the handshake discards what was queued: after a
    caller's send calls on well-formed messages, the close sends none of
    the queued payloads and releases every entry, those queued before and
    those of each call, in order. *)
Theorem queued_sends_are_discarded_by_close
    (p : @PseudoSSLPriv NiceAddress B) calls :
  handshaken p = false ->
  forallb acceptable_call calls = true ->
  exists p1,
    send_each nice_address_zero p calls = Returns tt p1 []
    /\ sends (socket_close p1) = []
    /\ freed_entries (socket_close p1)
       = send_queue p ++ flat_map (entries_of nice_address_zero) calls.
Proof.
  intros Hh Hcalls. eexists. split.
  - exact (send_each_acceptable calls Hcalls p Hh).
  - unfold socket_close. cbn [send_queue base_socket].
    rewrite !sends_app, !freed_entries_app.
    rewrite sends_free_to_be_sent, freed_entries_free_to_be_sent.
    destruct (base_socket p); simpl; now rewrite app_nil_r.
Qed.

End Delivery.

(** * The further properties on concrete inputs *)

(** The decorator built on [answering_socket] becomes handshaken by one
    receive. *)
Lemma answering_socket_handshakes :
  reaches 0 (priv (fst (nice_pseudossl_socket_new answering_socket)))
    {| handshaken := true;
       base_socket := Some {| incoming := []; send_result := -1 |};
       send_queue := [] |}.
Proof.
  eapply reaches_step; [apply reaches_here|].
  eapply step_recv with (data := stale_data) (recv_messages := [])
                        (n_recv_messages := 0).
  reflexivity.
Defined.

(** A handshaken decorator after one more receive, which finds nothing. *)
Lemma handshaken_is_permanent_witness :
  handshaken
    {| handshaken := true;
       base_socket := Some {| incoming := []; send_result := -1 |};
       send_queue := @nil (@to_be_sent Z) |}
  = true.
Proof.
  refine (handshaken_is_permanent 0
            {| handshaken := true;
               base_socket := Some {| incoming := []; send_result := -1 |};
               send_queue := [] |}
            _ _ eq_refl).
  eapply reaches_step; [apply reaches_here|].
  eapply step_recv with (data := stale_data) (recv_messages := [])
                        (n_recv_messages := 0).
  reflexivity.
Defined.

(** A poisoned decorator after one send call. *)
Lemma released_base_never_returns_witness :
  base_socket
    {| handshaken := false;
       base_socket := @None ScriptedSocket;
       send_queue := [hello_entry] |}
  = None.
Proof.
  refine (released_base_never_returns 0 poisoned_priv _ _ eq_refl).
  eapply reaches_step; [apply reaches_here|].
  eapply step_send with (messages := [scattered_message]) (n_messages := 1).
  reflexivity.
Defined.

Lemma queue_empty_once_handshaken_witness :
  send_queue
    {| handshaken := true;
       base_socket := Some {| incoming := []; send_result := -1 |};
       send_queue := @nil (@to_be_sent Z) |}
  = [].
Proof.
  exact (queue_empty_once_handshaken 0 answering_socket _
           answering_socket_handshakes eq_refl).
Defined.

Lemma passthrough_after_handshake_witness :
  exists b,
    Some {| incoming := []; send_result := -1 |} = Some b
    /\ socket_send_messages 0
         {| handshaken := true;
            base_socket := Some {| incoming := []; send_result := -1 |};
            send_queue := [] |}
         [scattered_message] 1
       = Returns (-1)
           {| handshaken := true;
              base_socket := Some b;
              send_queue := [] |}
           [SendMessages [scattered_message] 1].
Proof.
  destruct (passthrough_after_handshake 0 answering_socket _
              answering_socket_handshakes eq_refl)
    as (b & Hb & _ & Hsend).
  exists b. split; [exact Hb|].
  injection Hb as <-.
  exact (Hsend [scattered_message] 1).
Defined.

(** The base socket reports one record, the wrong one: the caller gets
    [-1] and its messages back. *)
Lemma recv_before_handshake_delivers_nothing_witness :
  -1 <= 0 /\ @nil (@NiceInputMessage Z) = []
  /\ (false = true -> -1 = 0).
Proof.
  exact (recv_before_handshake_delivers_nothing stale_data
           (waiting_on echoing_socket) [] 0 (-1) []
           {| handshaken := false;
              base_socket := None;
              send_queue := [hello_entry; bye_entry] |}
           [RecvMessages [local_recv_message stale_data] 1; SocketFree]
           eq_refl eq_refl).
Defined.

Lemma no_data_then_handshake_flushes_queue_witness :
  exists p1,
    socket_recv_messages stale_data (waiting_on slow_socket) [] 0
    = Returns (0, []) p1 [RecvMessages [local_recv_message stale_data] 1]
    /\ socket_recv_messages stale_data p1 [] 0
       = Returns (0, [])
           {| handshaken := true;
              base_socket := Some {| incoming := []; send_result := 5 |};
              send_queue := [] |}
           [RecvMessages [local_recv_message stale_data] 1;
            Send (Some 7) 5 [x68; x65; x6c; x6c; x6f];
            GFree [x68; x65; x6c; x6c; x6f]; SliceFreeTbs hello_entry;
            Send (Some 0) 3 [x62; x79; x65];
            GFree [x62; x79; x65]; SliceFreeTbs bye_entry].
Proof.
  assert (H0 : 0 <= 0) by lia.
  exact (no_data_then_handshake_flushes_queue stale_data stale_data
           (waiting_on slow_socket) slow_socket [] 0 [] 0
           {| incoming := [(1, 79, SSL_SERVER_HANDSHAKE)]; send_result := 5 |}
           0
           [{| in_buffers := [{| in_buffer := stale_data; in_size := 79 |}];
               in_n_buffers := 1; in_from := None; in_length := 79 |}]
           {| incoming := []; send_result := 5 |}
           [{| in_buffers :=
                 [{| in_buffer := SSL_SERVER_HANDSHAKE; in_size := 79 |}];
               in_n_buffers := 1; in_from := None; in_length := 79 |}]
           eq_refl eq_refl eq_refl H0 eq_refl eq_refl eq_refl).
Defined.

(** A life in which the handshake fails: the free happens in the receive,
    and the close does not repeat it. *)
Lemma base_socket_freed_exactly_once_witness :
  count_socket_free
    ([RecvMessages [local_recv_message stale_data] 1; SocketFree]
     ++ socket_close poisoned_priv)
  = 1%nat.
Proof.
  refine (base_socket_freed_exactly_once 0 echoing_socket poisoned_priv
            ([] ++ [RecvMessages [local_recv_message stale_data] 1;
                    SocketFree])
            _).
  eapply runs_recv with (data := stale_data) (recv_messages := [])
                        (n_recv_messages := 0);
    [apply runs_here|reflexivity].
Defined.

Lemma send_keeps_entries_whole_witness :
  forallb whole
    [hello_entry; bye_entry;
     {| buf := [x68; x65; x6c; x6c; x6f]; tbs_length := 5; tbs_to := 9 |}]
  = true.
Proof.
  exact (send_keeps_entries_whole 0 (waiting_on answering_socket)
           {| handshaken := false;
              base_socket := Some answering_socket;
              send_queue :=
                [hello_entry; bye_entry;
                 {| buf := [x68; x65; x6c; x6c; x6f];
                    tbs_length := 5; tbs_to := 9 |}] |}
           [long_message] 1 TRUE [] eq_refl eq_refl eq_refl eq_refl).
Defined.

Lemma longer_buffers_are_truncated_witness :
  add_to_be_sent 0 poisoned_priv [long_message] 1
  = Returns tt
      {| handshaken := false;
         base_socket := None;
         send_queue :=
           [{| buf := [x68; x65; x6c; x6c; x6f];
               tbs_length := 5; tbs_to := 9 |}] |}
      []
  /\ sizeof [x68; x65; x6c; x6c; x6f] = 5.
Proof.
  assert (Hcov : 5 <= 8) by lia.
  exact (longer_buffers_are_truncated 0 poisoned_priv long_message
           [ {| buffer := Some [x68; x65; x6c]; size := 3 |};
             {| buffer := Some [x6c; x6f; x21; x21; x21]; size := 5 |} ]
           eq_refl eq_refl Hcov).
Defined.

(** Two send calls, the second reading one message of an array of two,
    then the handshake. *)
Lemma buffered_sends_are_delivered_in_order_witness :
  exists p1 p2 t,
    send_each 0 (waiting_on answering_socket)
      [([scattered_message], 1); ([long_message; short_message], 1)]
    = Returns tt p1 []
    /\ socket_recv_messages stale_data p1 [] 0 = Returns (0, []) p2 t
    /\ handshaken p2 = true
    /\ send_queue p2 = []
    /\ sends t
       = [Send (Some 7) 5 [x68; x65; x6c; x6c; x6f];
          Send (Some 0) 3 [x62; x79; x65];
          Send (Some 7) 5 [x68; x65; x6c; x6c; x6f];
          Send (Some 9) 5 [x68; x65; x6c; x6c; x6f]].
Proof.
  exact (buffered_sends_are_delivered_in_order 0 stale_data
           (waiting_on answering_socket) answering_socket
           [([scattered_message], 1); ([long_message; short_message], 1)]
           [] 0
           {| incoming := []; send_result := -1 |}
           [{| in_buffers :=
                 [{| in_buffer := SSL_SERVER_HANDSHAKE; in_size := 79 |}];
               in_n_buffers := 1; in_from := None; in_length := 79 |}]
           eq_refl eq_refl eq_refl eq_refl eq_refl eq_refl).
Defined.

Lemma queued_sends_are_discarded_by_close_witness :
  exists p1,
    send_each 0 (waiting_on answering_socket)
      [([scattered_message], 1); ([long_message; short_message], 1)]
    = Returns tt p1 []
    /\ sends (socket_close p1) = []
    /\ freed_entries (socket_close p1)
       = [hello_entry; bye_entry; hello_entry;
          {| buf := [x68; x65; x6c; x6c; x6f];
             tbs_length := 5; tbs_to := 9 |}].
Proof.
  exact (queued_sends_are_discarded_by_close 0 (waiting_on answering_socket)
           [([scattered_message], 1); ([long_message; short_message], 1)]
           eq_refl eq_refl).
Defined.

(** * A record of the wrong size *)

(** C5.  The claim fails on the code for a record of the wrong size.  The
    stream socket delivers one record of 78 bytes, the server handshake
    record without its last byte, and reports 78 in the [length] of the
    message; the receive array held zeros, and the last byte of the
    handshake record is zero.  The test of the code reads
    [local_recv_buf.size], which the function itself set to 79 and the base
    socket left alone, and compares all 79 bytes of the array: the record is
    taken for the handshake.  The base socket is not released, the call
    returns [0], the decorator is handshaken and the queue is flushed. *)
Lemma short_record_is_accepted :
  sizeof short_record = 78
  /\ sizeof SSL_SERVER_HANDSHAKE = 79
  /\ snd (stream_recv {| pending := [short_record] |}
            [local_recv_message zeroed_data] 1)
     = (1,
        [{| in_buffers :=
              [{| in_buffer := SSL_SERVER_HANDSHAKE; in_size := 79 |}];
            in_n_buffers := 1;
            in_from := None;
            in_length := 78 |}])
  /\ @socket_recv_messages _ _ _ stream_ops zeroed_data
       waiting_on_short_record [] 0
     = Returns (0, [])
         {| handshaken := true;
            base_socket := Some {| pending := [] |};
            send_queue := [] |}
         [RecvMessages [local_recv_message zeroed_data] 1;
          Send (Some 7) 5 [x68; x65; x6c; x6c; x6f];
          GFree [x68; x65; x6c; x6c; x6f];
          SliceFreeTbs
            {| buf := [x68; x65; x6c; x6c; x6f];
               tbs_length := 5; tbs_to := 7 |};
          Send (Some 0) 3 [x62; x79; x65];
          GFree [x62; x79; x65];
          SliceFreeTbs
            {| buf := [x62; x79; x65]; tbs_length := 3; tbs_to := 0 |}].
Proof.
  split; [reflexivity|]. split; [reflexivity|].
  split; vm_compute; reflexivity.
Qed.
